(** * lazyservice: a supervisor of named services over Go contexts

    The development embeds the two packages of the repository:
    - [lazyapp] (the [lazyApp] supervisor with [AppGet]/[AppSet]/[AddValue]
      and its [context.Context] methods), and
    - [lazyservice] (the [manager] supervisor and the [serviceFunc] adapter),
    on top of small models of the Go facilities they call: interface values
    and type assertions, [reflect.TypeOf], [errors.Is], [context] and
    [errgroup]. *)

From Stdlib Require Import ZArith Bool.
From stdpp Require Import base decidable option strings list.
From ITree Require Import ITree.

Local Open Scope string_scope.
Local Open Scope list_scope.

(** ** Go values seen through interfaces *)

Module Go.

(** The part of a Go type that the runtime inspects here: its identity, its
    method set, whether it is an interface and whether it is comparable. *)
Inductive gotype :=
| TBool
| TInt
| TString
| TDefined (name : string) (underlying : gotype) (methods : list string)
| TStruct (name : string) (methods : list string)
| TPtr (elem : gotype)
| TSlice (elem : gotype)
| TRtype
| TInterface (name : string) (methods : list string).

(** A [slog.Logger], as far as the supervisor uses one: the sink it writes to
    and the attributes added with [With]. *)
Record Logger := { handler : string; attrs : list (string * string) }.

#[export] Instance Logger_eq_dec : EqDecision Logger.
Proof. solve_decision. Defined.

Inductive payload :=
| PBool (b : bool)
| PInt (z : Z)
| PString (s : string)
| PStruct (fields : list string)
| PPtr (addr : option nat)
| PSlice (addr : option nat) (len : nat)
| PType (t : gotype)
| PLogger (l : Logger).

#[export] Instance gotype_eq_dec : EqDecision gotype.
Proof. solve_decision. Defined.

#[export] Instance payload_eq_dec : EqDecision payload.
Proof. solve_decision. Defined.

(** An interface value ([any], [error], [reflect.Type], ...): nil, or a
    dynamic type with its data. A value of a concrete type [T] is carried in
    the same form, [Some (T, p)], which is what converting it to [any] gives. *)
Definition any : Type := option (gotype * payload).

Definition nil : any := None.

Fixpoint is_interface (t : gotype) : bool :=
  match t with
  | TInterface _ _ => true
  | TDefined _ u _ => is_interface u
  | _ => false
  end.

(** Whether [==] is defined on the values of a type. The struct types here
    carry no field list: they stand for the struct types the program uses
    ([errors.errorString], [slog.Logger]), whose fields are comparable. A
    struct type with a field that is not would be rejected by
    [context.WithValue] as a key's type; such keys are outside this model. *)
Fixpoint comparable (t : gotype) : bool :=
  match t with
  | TSlice _ => false
  | TDefined _ u _ => comparable u
  | _ => true
  end.

(** The types on whose values [==] is total and reflexive whatever the values
    are: booleans, integers, strings, pointers, type descriptors and the
    types defined over these. A struct type is left out, since [==] on a
    struct with a field of interface type can panic at run time, and so would
    a floating-point type be, since a NaN is not equal to itself. *)
Fixpoint plain (t : gotype) : bool :=
  match t with
  | TBool | TInt | TString | TPtr _ | TRtype => true
  | TDefined _ u _ => plain u
  | _ => false
  end.

Fixpoint interface_methods (t : gotype) : list string :=
  match t with
  | TInterface _ ms => ms
  | TDefined _ u _ => interface_methods u
  | _ => []
  end.

Definition method_set (t : gotype) : list string :=
  match t with
  | TDefined _ _ ms => ms
  | TStruct _ ms => ms
  | TPtr (TDefined _ _ ms) => ms
  | TPtr (TStruct _ ms) => ms
  | _ => []
  end.

Definition implements (d i : gotype) : bool :=
  forallb (fun m => bool_decide (m ∈ method_set d)) (interface_methods i).

Fixpoint zero_payload (t : gotype) : payload :=
  match t with
  | TBool => PBool false
  | TInt => PInt 0
  | TString => PString ""
  | TDefined _ u _ => zero_payload u
  | TStruct _ _ => PStruct []
  | TPtr _ => PPtr None
  | TSlice _ => PSlice None 0
  | TRtype => PPtr None
  | TInterface _ _ => PPtr None
  end.

(** [*new(T)]: the zero value of [T]; nil when [T] is an interface type. *)
Definition zero_value (T : gotype) : any :=
  if is_interface T then nil else Some (T, zero_payload T).

(** [v] is a value of static type [T]. *)
Definition has_type (T : gotype) (v : any) : bool :=
  match v with
  | None => is_interface T
  | Some (D, _) =>
      negb (is_interface D) &&
      (if is_interface T then implements D T else bool_decide (D = T))
  end.

(** [t, ok := v.(T)] *)
Definition type_assert (T : gotype) (v : any) : any * bool :=
  match v with
  | None => (zero_value T, false)
  | Some (D, _) =>
      if is_interface T
      then (if implements D T then (v, true) else (zero_value T, false))
      else (if bool_decide (D = T) then (v, true) else (zero_value T, false))
  end.

(** A non-nil interface value whose dynamic type is [plain]. *)
Definition plain_key (key : any) : bool :=
  match key with
  | None => false
  | Some (K, _) => plain K
  end.

(** [reflect.TypeOf(i)]: the descriptor of the dynamic type of [i], nil for a
    nil interface value. The result is a [reflect.Type] holding a [*rtype]. *)
Definition reflect_TypeOf (i : any) : any :=
  match i with
  | None => nil
  | Some (D, _) => Some (TRtype, PType D)
  end.

(** The predeclared interface type [error]. *)
Definition error_type : gotype := TInterface "error" ["Error"].

(** [*errors.errorString], the type of the values of [errors.New]. *)
Definition errorString_ptr : gotype :=
  TPtr (TStruct "errors.errorString" ["Error"]).

(** The outcome of a call that may panic. *)
Inductive result (A : Type) :=
| Ok (a : A)
| Panic (msg : string).
Arguments Ok {A} a.
Arguments Panic {A} msg.

Definition bind {A B} (r : result A) (k : A -> result B) : result B :=
  match r with
  | Ok a => k a
  | Panic m => Panic m
  end.

End Go.

Notation "x <-! r ; k" := (Go.bind r (fun x => k))
  (at level 100, r at next level, right associativity).

(** ** errors *)

Module Errors.

Inductive sentinel := SCanceled | SDeadlineExceeded.

#[export] Instance sentinel_eq_dec : EqDecision sentinel.
Proof. solve_decision. Defined.

(** Error values. [Canceled] and [DeadlineExceeded] are the two variables of
    package [context]. Any other error is an allocated value with an identity,
    its message, the targets its own [Is] method accepts, and the errors its
    [Unwrap] method gives (none, one for [%w], several for [errors.Join]). *)
Inductive goerror :=
| Canceled
| DeadlineExceeded
| ErrorVal (id : nat) (msg : string) (is_method : list sentinel)
           (unwrap : list goerror).

(** The [error] interface: nil or an error value. *)
Definition error : Type := option goerror.

(** [err == target] on two non-nil error values *)
Definition same (e t : goerror) : bool :=
  match e, t with
  | Canceled, Canceled => true
  | DeadlineExceeded, DeadlineExceeded => true
  | ErrorVal i _ _ _, ErrorVal j _ _ _ => Nat.eqb i j
  | _, _ => false
  end.

(** [x.Is(target)] when [x] has such a method *)
Definition custom_is (e t : goerror) : bool :=
  match e, t with
  | ErrorVal _ _ ms _, Canceled => bool_decide (SCanceled ∈ ms)
  | ErrorVal _ _ ms _, DeadlineExceeded => bool_decide (SDeadlineExceeded ∈ ms)
  | _, _ => false
  end.

(** The loop of [errors.is]: the error itself, then its [Unwrap] tree
    depth first. *)
Fixpoint is_ (e t : goerror) : bool :=
  same e t || custom_is e t ||
  match e with
  | ErrorVal _ _ _ ws => existsb (fun w => is_ w t) ws
  | _ => false
  end.

(** [errors.Is(err, target)] *)
Definition Is (err target : error) : bool :=
  match err, target with
  | Some e, Some t => is_ e t
  | None, None => true
  | _, _ => false
  end.

(** [err.Error()] *)
Definition Error (e : goerror) : string :=
  match e with
  | Canceled => "context canceled"
  | DeadlineExceeded => "context deadline exceeded"
  | ErrorVal _ msg _ _ => msg
  end.

(** Induction on an error and, through [Unwrap], on the errors inside it. *)
Section Induction.

Variable P : goerror -> Prop.
Hypothesis P_Canceled : P Canceled.
Hypothesis P_DeadlineExceeded : P DeadlineExceeded.
Hypothesis P_ErrorVal :
  forall i m ms ws, Forall P ws -> P (ErrorVal i m ms ws).

Fixpoint goerror_nested_ind (e : goerror) : P e :=
  match e with
  | Canceled => P_Canceled
  | DeadlineExceeded => P_DeadlineExceeded
  | ErrorVal i m ms ws =>
      P_ErrorVal i m ms ws
        ((fix all (l : list goerror) : Forall P l :=
            match l with
            | [] => @List.Forall_nil _ P
            | w :: l' =>
                @List.Forall_cons _ P w l' (goerror_nested_ind w) (all l')
            end) ws)
  end.

End Induction.

(** Wrapped-error matching, said directly: [e] matches [t] when it is [t],
    when its own [Is] method accepts [t], or when an error it unwraps to
    matches [t]. *)
Inductive Matches (t : goerror) : goerror -> Prop :=
| Matches_same e : same e t = true -> Matches t e
| Matches_custom e : custom_is e t = true -> Matches t e
| Matches_unwrap i m ms ws w :
    w ∈ ws -> Matches t w -> Matches t (ErrorVal i m ms ws).

(** An error that stands for cancellation or for an exceeded deadline. *)
Definition benign (err : error) : Prop :=
  exists e, err = Some e /\ (Matches Canceled e \/ Matches DeadlineExceeded e).

End Errors.

(** ** log/slog and runtime/trace, as an event log *)

Module Slog.
Import Go.

(** [*slog.Logger] *)
Definition TLogger : gotype := TPtr (TStruct "slog.Logger" []).

(** A [*slog.Logger] variable: nil or a logger. *)
Definition to_any (l : option Logger) : any :=
  match l with
  | Some l => Some (TLogger, PLogger l)
  | None => Some (TLogger, PPtr None)
  end.

Definition of_any (v : any) : option Logger :=
  match v with
  | Some (_, PLogger l) => Some l
  | _ => None
  end.

(** [slog.Default()] *)
Definition Default : Logger := {| handler := "default"; attrs := [] |}.

(** [l.With(k, v)] *)
Definition With (l : Logger) (k v : string) : Logger :=
  {| handler := handler l; attrs := attrs l ++ [(k, v)] |}.

Inductive level := LevelInfo | LevelError.

(** What the logging and tracing sinks receive. *)
Inductive event :=
| Record_ (lvl : level) (l : Logger) (msg : string)
| RegionStart (region : string)
| RegionEnd (region : string).

End Slog.

(** ** context *)

Module Ctx.
Import Go Errors.

(** The signals the program names. [os.Interrupt] is [syscall.SIGINT]: the
    two are one signal. *)
Inductive signal := Interrupt | SIGTERM.

#[export] Instance signal_eq_dec : EqDecision signal.
Proof. solve_decision. Defined.

(** Context values are immutable chains. Every node that can be cancelled on
    its own carries the identity of its cancellation state; when that state
    changes is for the [world] below to say. *)
Inductive Context :=
| backgroundCtx
| valueCtx (parent : Context) (key val : any)
| cancelCtx (parent : Context) (id : nat)
| timerCtx (parent : Context) (id : nat) (deadline : Z)
| signalCtx (parent : Context) (id : nat) (signals : list signal).

(** [c.Value(key)]: the nearest binding of [key] from [c] outward, or nil.
    The keys are compared with [==], which on the values modelled here is
    structural equality; it is the comparison Go makes for the descriptors
    of [reflect.TypeOf] and for every [plain_key]. *)
Fixpoint Value (c : Context) (key : any) : any :=
  match c with
  | backgroundCtx => nil
  | valueCtx parent k v =>
      if bool_decide (k = key) then v else Value parent key
  | cancelCtx parent _ => Value parent key
  | timerCtx parent _ _ => Value parent key
  | signalCtx parent _ _ => Value parent key
  end.

(** [c.Deadline()]: the deadline of the nearest context made with one. *)
Fixpoint Deadline (c : Context) : option Z :=
  match c with
  | backgroundCtx => None
  | valueCtx parent _ _ => Deadline parent
  | cancelCtx parent _ => Deadline parent
  | timerCtx _ _ deadline => Some deadline
  | signalCtx parent _ _ => Deadline parent
  end.

(** [context.WithValue(parent, key, val)]; [parent] may be a nil interface. *)
Definition WithValue (parent : option Context) (key val : any)
  : result Context :=
  match parent with
  | None => Panic "cannot create context from nil parent"
  | Some p =>
      match key with
      | None => Panic "nil key"
      | Some (K, _) =>
          if comparable K then Ok (valueCtx p key val)
          else Panic "key is not comparable"
      end
  end.

(** The cancellation states a context depends on: its own and its
    ancestors'. *)
Fixpoint cancel_ids (c : Context) : list nat :=
  match c with
  | backgroundCtx => []
  | valueCtx parent _ _ => cancel_ids parent
  | cancelCtx parent id => id :: cancel_ids parent
  | timerCtx parent id _ => id :: cancel_ids parent
  | signalCtx parent id _ => id :: cancel_ids parent
  end.

(** The cancellation state shared by all contexts: which nodes were cancelled,
    oldest first, with the error each one reports; the contexts registered
    for signals; the next fresh identity. *)
Record world := {
  fired : list (nat * sentinel);
  notify : list (nat * list signal);
  next_id : nat
}.

Definition empty_world : world :=
  {| fired := []; notify := []; next_id := 0 |}.

Definition error_of (s : sentinel) : goerror :=
  match s with
  | SCanceled => Canceled
  | SDeadlineExceeded => DeadlineExceeded
  end.

(** [c.Err()]: nil until [c] or an ancestor is cancelled, then the error of
    the cancellation that came first. *)
Definition Err (w : world) (c : Context) : error :=
  match List.find (fun e => bool_decide (e.1 ∈ cancel_ids c)) (fired w) with
  | Some e => Some (error_of e.2)
  | None => None
  end.

(** [<-c.Done()] can proceed. *)
Definition is_done (w : world) (c : Context) : bool :=
  match Err w c with Some _ => true | None => false end.

(** Cancelling node [id] with error [s]; a node cancelled before keeps its
    first error. *)
Definition fire (id : nat) (s : sentinel) (w : world) : world :=
  {| fired := fired w ++ [(id, s)]; notify := notify w; next_id := next_id w |}.

(** [context.WithCancel(parent)] / [context.WithCancelCause(parent)]: the new
    context and the identity its cancel function cancels. *)
Definition WithCancel (parent : Context) (w : world) : Context * nat * world :=
  let id := next_id w in
  (cancelCtx parent id, id,
   {| fired := fired w; notify := notify w; next_id := S id |}).

(** [signal.NotifyContext(parent, signals...)] *)
Definition NotifyContext (parent : Context) (sigs : list signal) (w : world)
  : Context * nat * world :=
  let id := next_id w in
  (signalCtx parent id sigs, id,
   {| fired := fired w; notify := notify w ++ [(id, sigs)]; next_id := S id |}).

(** The process receives signal [s]: every context registered for it is
    cancelled. *)
Definition deliver (s : signal) (w : world) : world :=
  fold_left
    (fun w r => if bool_decide (s ∈ r.2) then fire r.1 SCanceled w else w)
    (notify w) w.

(** One derivation of a context from another. *)
Inductive deriv :=
| DValue (key val : any)
| DCancel (id : nat)
| DTimer (id : nat) (deadline : Z)
| DSignal (id : nat) (signals : list signal).

Definition derive1 (c : Context) (d : deriv) : Context :=
  match d with
  | DValue k v => valueCtx c k v
  | DCancel id => cancelCtx c id
  | DTimer id t => timerCtx c id t
  | DSignal id sigs => signalCtx c id sigs
  end.

(** The descendant of [c] reached by the derivations [ds], oldest first. *)
Definition derive (c : Context) (ds : list deriv) : Context :=
  fold_left derive1 ds c.

Definition binds_key (key : any) (d : deriv) : bool :=
  match d with
  | DValue k _ => bool_decide (k = key)
  | _ => false
  end.

(** The keys bound on [c] and its ancestors. *)
Fixpoint bound_keys (c : Context) : list any :=
  match c with
  | backgroundCtx => []
  | valueCtx parent k _ => k :: bound_keys parent
  | cancelCtx parent _ => bound_keys parent
  | timerCtx parent _ _ => bound_keys parent
  | signalCtx parent _ _ => bound_keys parent
  end.

(** Identities are handed out in order: nothing cancelled or registered so
    far is at or above the next fresh one. *)
Definition well_formed (w : world) : Prop :=
  (forall id s, (id, s) ∈ fired w -> id < next_id w) /\
  (forall id sigs, (id, sigs) ∈ notify w -> id < next_id w).

End Ctx.

(** ** The supervisor's run as a machine

    From [errgroup.WithContext] on, [manager.Run] and [lazyApp.Run] are the
    same text but for the call of the service ([s.Run(ctx)] against
    [s.Run(ctx, l)]). The goroutines started by [grp.Go], the [errgroup.Group]
    they report to and the contexts they watch are a state; a schedule picks
    which goroutine moves next and what happens outside. *)

Module Supervisor.
Import Go Errors Slog Ctx.

(** What the body of a service does that others can see. *)
Variant taskE : Type -> Type :=
| Done_ (c : Context) : taskE unit
| Err_ (c : Context) : taskE error
| Emit (e : event) : taskE unit.

(** A call of [Service.Run]: it may wait for a context, read its error, log,
    compute for ever, or return an error. *)
Definition behaviour : Type := itree taskE error.

(** The closure handed to [grp.Go], by how far it got. *)
Inductive task :=
| Spawned
| Running (ctx : Context) (l : Logger) (p : behaviour)
| Finished (ret : error).

(** [errgroup.Group]: the first error and whether [errOnce] has run. *)
Record Group := { err : error; errOnce : bool }.

(** A run in progress: the cancellation state of the contexts, the closures
    by index of the service, the group, what was logged, which closures have
    returned so far and what their services returned (oldest first), whether
    the goroutine that watches the root has reported, and what [Run] returned
    if it has. *)
Record state := {
  cancels : world;
  tasks : list task;
  group : Group;
  log : list event;
  returns : list (nat * error);
  watcher_fired : bool;
  returned : option error
}.

(** What can happen next: goroutine [i] of the group moves; the goroutine
    that watches the root moves; a context is cancelled from outside ([Fire],
    with [SCanceled] for a cancel function that is called and
    [SDeadlineExceeded] for a timer that expires); the process receives a
    signal; [Wait] unblocks and [Run] returns. *)
Inductive label :=
| Sched (i : nat)
| Watch
| Fire (id : nat) (s : sentinel)
| Deliver (sig : signal)
| WaitReturns.

(** Lines 131-140 of [manager.Run] (299-308 of [lazyApp.Run]): what the
    closure logs and returns once the service returned [err]. *)
Definition classify (l : Logger) (err : error) : list event * error :=
  if Is err (Some Canceled) || Is err (Some DeadlineExceeded)
  then ([Record_ LevelInfo l "stopped"], None)
  else ((match err with
         | Some e => [Record_ LevelError l (Error e)]
         | None => []
         end) ++ [Record_ LevelInfo l "app gracefully stoped"], err).

(** What a closure returns for a service that returned [err]. *)
Definition contribution (err : error) : error :=
  if Is err (Some Canceled) || Is err (Some DeadlineExceeded)
  then None else err.

(** The first non-nil error of a sequence. *)
Fixpoint first_error (errs : list error) : error :=
  match errs with
  | [] => None
  | Some e :: _ => Some e
  | None :: rest => first_error rest
  end.

(** A behaviour that comes to its return in finitely many moves, none of
    which waits for a context. *)
Inductive returns_unaided : behaviour -> Prop :=
| ru_ret p r :
    observe p = RetF r -> returns_unaided p
| ru_tau p p' :
    observe p = TauF p' -> returns_unaided p' -> returns_unaided p
| ru_err p c k :
    observe p = VisF (Err_ c) k -> (forall err, returns_unaided (k err)) ->
    returns_unaided p
| ru_emit p ev k :
    observe p = VisF (Emit ev) k -> returns_unaided (k tt) ->
    returns_unaided p.

(** A behaviour that comes to its return in finitely many moves once the
    context [c] is done: it may wait, but only for [c]. *)
Inductive returns_once_done (c : Context) : behaviour -> Prop :=
| rd_ret p r :
    observe p = RetF r -> returns_once_done c p
| rd_tau p p' :
    observe p = TauF p' -> returns_once_done c p' -> returns_once_done c p
| rd_err p c' k :
    observe p = VisF (Err_ c') k ->
    (forall err, returns_once_done c (k err)) ->
    returns_once_done c p
| rd_emit p ev k :
    observe p = VisF (Emit ev) k -> returns_once_done c (k tt) ->
    returns_once_done c p
| rd_done p k :
    observe p = VisF (Done_ c) k -> returns_once_done c (k tt) ->
    returns_once_done c p.

(** What is left of a behaviour after one move that is not its return, when
    the contexts are as [w] has them. *)
Definition after_move (w : world) (p : behaviour) : option behaviour :=
  match observe p with
  | RetF _ => None
  | TauF p' => Some p'
  | VisF ev k =>
      match ev in taskE X return (X -> behaviour) -> option behaviour with
      | Done_ _ => fun k => Some (k tt)
      | Err_ c => fun k => Some (k (Err w c))
      | Emit _ => fun k => Some (k tt)
      end k
  end.

(** Every service that is running comes to its return once its own context
    is done. *)
Definition cooperative (st : state) : Prop :=
  forall i ctx l p,
    tasks st !! i = Some (Running ctx l p) -> returns_once_done ctx p.

Definition is_finished (t : task) : bool :=
  match t with Finished _ => true | _ => false end.

Section Machine.

Variable Svc : Type.
Variable svc_name : Svc -> string.
Variable svc_run : Svc -> Context -> Logger -> behaviour.

(** What [Run] has fixed by the time it starts the goroutines. *)
Record env := {
  svcs : list Svc;
  app_logger : Logger;
  root : Context;
  grpCtx : Context;
  gid : nat;
  deferred_cancel : option nat;
  watches_root : bool
}.

Definition set_task (i : nat) (t : task) (evs : list event) (st : state)
  : state :=
  {| cancels := cancels st;
     tasks := <[i := t]> (tasks st);
     group := group st;
     log := log st ++ evs;
     returns := returns st;
     watcher_fired := watcher_fired st;
     returned := returned st |}.

(** Lines 123-130: the service's logger and context, the trace region, the
    first record, and the call of the service. *)
Definition start_task (e : env) (i : nat) (s : Svc) (st : state)
  : option state :=
  let l := With (app_logger e) "service" (svc_name s) in
  match WithValue (Some (grpCtx e))
          (reflect_TypeOf (to_any (Some (app_logger e)))) (to_any (Some l)) with
  | Panic _ => None
  | Ok ctx =>
      Some (set_task i (Running ctx l (svc_run s ctx l))
              [RegionStart ("service:" +:+ svc_name s);
               Record_ LevelInfo l "starting service"] st)
  end.

(** The service returned [err]: the closure classifies it and returns, and the
    wrapper of [Group.Go] records a non-nil value if it is the first, then
    cancels the group's context. *)
Definition finish_task (e : env) (i : nat) (s : Svc) (l : Logger)
    (err : error) (st : state) : state :=
  let '(evs, ret) := classify l err in
  let first := match ret with
               | Some _ => negb (errOnce (group st))
               | None => false
               end in
  {| cancels := if first then fire (gid e) SCanceled (cancels st)
                else cancels st;
     tasks := <[i := Finished ret]> (tasks st);
     group := if first then {| err := ret; errOnce := true |} else group st;
     log := log st ++ evs ++ [RegionEnd ("service:" +:+ svc_name s)];
     returns := returns st ++ [(i, err)];
     watcher_fired := watcher_fired st;
     returned := returned st |}.

(** One move of a service that is running. *)
Definition run_task (e : env) (i : nat) (s : Svc) (ctx : Context)
    (l : Logger) (p : behaviour) (st : state) : option state :=
  match observe p with
  | RetF err => Some (finish_task e i s l err st)
  | TauF p' => Some (set_task i (Running ctx l p') [] st)
  | VisF ev k =>
      match ev in taskE X return (X -> behaviour) -> option state with
      | Done_ c => fun k =>
          if is_done (cancels st) c
          then Some (set_task i (Running ctx l (k tt)) [] st)
          else None
      | Err_ c => fun k =>
          Some (set_task i (Running ctx l (k (Err (cancels st) c))) [] st)
      | Emit ev => fun k =>
          Some (set_task i (Running ctx l (k tt)) [ev] st)
      end k
  end.

Definition set_cancels (w : world) (st : state) : state :=
  {| cancels := w;
     tasks := tasks st;
     group := group st;
     log := log st;
     returns := returns st;
     watcher_fired := watcher_fired st;
     returned := returned st |}.

(** The goroutine of [manager.Run] that waits for the root context and then
    reports the interrupt. *)
Definition watcher_logs (e : env) (st : state) : state :=
  {| cancels := cancels st;
     tasks := tasks st;
     group := group st;
     log := log st ++ [Record_ LevelInfo (app_logger e)
                         "interrupt signal received"];
     returns := returns st;
     watcher_fired := true;
     returned := returned st |}.

(** [grp.Wait()] unblocks: it cancels the group's context and gives the
    group's error, which [Run] returns after its deferred calls. *)
Definition wait_returns (e : env) (st : state) : state :=
  let w1 := fire (gid e) SCanceled (cancels st) in
  let w2 := match deferred_cancel e with
            | Some id => fire id SCanceled w1
            | None => w1
            end in
  {| cancels := w2;
     tasks := tasks st;
     group := group st;
     log := log st ++ [RegionEnd "lazyapp.Run"];
     returns := returns st;
     watcher_fired := watcher_fired st;
     returned := Some (err (group st)) |}.

(** One move of the whole; [None] when the move is not possible now. Nothing
    outside the group can cancel the group's own context: only the [Group]
    holds its cancel function. *)
Definition step (e : env) (lb : label) (st : state) : option state :=
  match lb with
  | Sched i =>
      match tasks st !! i, svcs e !! i with
      | Some Spawned, Some s => start_task e i s st
      | Some (Running ctx l p), Some s => run_task e i s ctx l p st
      | _, _ => None
      end
  | Watch =>
      if watches_root e && negb (watcher_fired st)
         && is_done (cancels st) (root e)
      then Some (watcher_logs e st)
      else None
  | Fire id s =>
      if bool_decide (id = gid e) then None
      else Some (set_cancels (fire id s (cancels st)) st)
  | Deliver sig => Some (set_cancels (deliver sig (cancels st)) st)
  | WaitReturns =>
      match returned st with
      | Some _ => None
      | None =>
          if forallb is_finished (tasks st)
          then Some (wait_returns e st)
          else None
      end
  end.

(** A schedule, move by move. *)
Fixpoint exec (e : env) (sched : list label) (st : state) : option state :=
  match sched with
  | [] => Some st
  | lb :: rest =>
      match step e lb st with
      | Some st' => exec e rest st'
      | None => None
      end
  end.

(** The state after the loop of [grp.Go] calls: one goroutine per service,
    none of which has begun. *)
Definition spawn_all (e : env) (w : world) (evs : list event) : state :=
  {| cancels := w;
     tasks := map (fun _ => Spawned) (svcs e);
     group := {| err := None; errOnce := false |};
     log := evs;
     returns := [];
     watcher_fired := false;
     returned := None |}.

(** The same moves as a relation, by what they do. *)
Inductive move (e : env) (st : state) : state -> Prop :=
| move_start i s l ctx :
    tasks st !! i = Some Spawned -> svcs e !! i = Some s ->
    l = With (app_logger e) "service" (svc_name s) ->
    ctx = valueCtx (grpCtx e) (Some (TRtype, PType TLogger))
                   (to_any (Some l)) ->
    move e st (set_task i (Running ctx l (svc_run s ctx l))
                 [RegionStart ("service:" +:+ svc_name s);
                  Record_ LevelInfo l "starting service"] st)
| move_run i ctx l p p' evs :
    tasks st !! i = Some (Running ctx l p) ->
    move e st (set_task i (Running ctx l p') evs st)
| move_return i s ctx l p raw :
    tasks st !! i = Some (Running ctx l p) -> svcs e !! i = Some s ->
    observe p = RetF raw ->
    move e st (finish_task e i s l raw st)
| move_watch :
    is_done (cancels st) (root e) = true ->
    move e st (watcher_logs e st)
| move_fire id s :
    id <> gid e ->
    move e st (set_cancels (fire id s (cancels st)) st)
| move_deliver sig :
    move e st (set_cancels (deliver sig (cancels st)) st)
| move_wait :
    returned st = None -> forallb is_finished (tasks st) = true ->
    move e st (wait_returns e st).

(** The closures' returns so far, as what each gave the group. *)
Definition contributions (st : state) : list error :=
  map (fun r => contribution r.2) (returns st).

(** What holds of every state a run reaches: the group holds the first
    non-nil contribution, each closure returns once, and [Run] returns the
    group's error after all of them. *)
Record consistent (e : env) (st : state) : Prop := {
  c_length : length (tasks st) = length (svcs e);
  c_err : err (group st) = first_error (contributions st);
  c_once : errOnce (group st) = bool_decide (is_Some (err (group st)));
  c_nodup : NoDup (returns st).*1;
  c_finished : forall i r,
    tasks st !! i = Some (Finished r) <->
    exists raw, (i, raw) ∈ returns st /\ r = contribution raw;
  c_returned : forall r,
    returned st = Some r ->
    r = err (group st) /\ forallb is_finished (tasks st) = true
}.

(** The group's context was cancelled through the group only for a recorded
    error or at the end of [Wait]. *)
Definition group_cancel_explained (e : env) (st : state) : Prop :=
  (exists s, (gid e, s) ∈ fired (cancels st)) ->
  is_Some (err (group st)) \/ is_Some (returned st).

(** Every running service was given a context derived from the group's. *)
Definition under_group (e : env) (st : state) : Prop :=
  forall i ctx l p,
    tasks st !! i = Some (Running ctx l p) ->
    exists key val, ctx = valueCtx (grpCtx e) key val.

End Machine.

Arguments svcs {Svc} e.
Arguments app_logger {Svc} e.
Arguments root {Svc} e.
Arguments grpCtx {Svc} e.
Arguments gid {Svc} e.
Arguments deferred_cancel {Svc} e.
Arguments watches_root {Svc} e.
Arguments start_task {Svc} svc_name svc_run e i s st.
Arguments finish_task {Svc} svc_name e i s l err st.
Arguments run_task {Svc} svc_name e i s ctx l p st.
Arguments step {Svc} svc_name svc_run e lb st.
Arguments move {Svc} svc_name svc_run e st _.
Arguments watcher_logs {Svc} e st.
Arguments wait_returns {Svc} e st.
Arguments exec {Svc} svc_name svc_run e sched st.
Arguments spawn_all {Svc} e w evs.
Arguments consistent {Svc} e st.
Arguments c_length {Svc e st} _.
Arguments c_err {Svc e st} _.
Arguments c_once {Svc e st} _.
Arguments c_nodup {Svc e st} _.
Arguments c_finished {Svc e st} _ i r.
Arguments c_returned {Svc e st} _ r _.
Arguments group_cancel_explained {Svc} e st.
Arguments under_group {Svc} e st.

End Supervisor.

(** ** What the program asks of its process *)

Module Os.

Record os := {
  exe_base : string;
  exe_mtime : option string;
  stdout_terminal : bool
}.

End Os.

(** ** Package lazyapp *)

Module LazyApp.
Import Go Errors Slog Ctx Supervisor Os.

Record ServiceDescription := { Name : string }.

(** The [Service] interface of this package: [Desc()] and [Run(ctx, l)]. *)
Record Service := {
  Desc : ServiceDescription;
  Run : Context -> Logger -> behaviour
}.

Record serviceFunc := {
  sf_name : string;
  f : Context -> Logger -> behaviour
}.

Record serviceFuncDesc := { desc_name : string }.

Definition serviceFuncDesc_Name (d : serviceFuncDesc) : string := desc_name d.

(** [serviceFunc.Run(ctx, l)]; [l] may be nil. *)
Definition serviceFunc_Run (s : serviceFunc) (ctx : Context)
    (l : option Logger) : behaviour :=
  f s ctx (default Slog.Default l).

Definition serviceFunc_Desc (s : serviceFunc) : ServiceDescription :=
  {| Name := serviceFuncDesc_Name {| desc_name := sf_name s |} |}.

Definition ServiceFunc (name : string) (f : Context -> Logger -> behaviour)
  : Service :=
  let s := {| sf_name := name; f := f |} in
  {| Desc := serviceFunc_Desc s;
     Run := fun ctx l => serviceFunc_Run s ctx (Some l) |}.

Record lazyApp := {
  name : string;
  version : string;
  ctx : option Context;
  logger : option Logger;
  services : list Service;
  done : bool;
  cancel : option nat
}.

Definition getVersion (o : os) : string :=
  match exe_mtime o with
  | None => ""
  | Some t => t
  end.

Definition init (o : os) (a : lazyApp) : lazyApp :=
  {| name := if bool_decide (name a = "") then exe_base o else name a;
     version := if bool_decide (version a = "") then getVersion o
                else version a;
     ctx := ctx a;
     logger := logger a;
     services := services a;
     done := true;
     cancel := cancel a |}.

Definition New (o : os) (name version : string) : lazyApp :=
  init o {| name := name; version := version; ctx := None; logger := None;
            services := []; done := false; cancel := None |}.

Definition NewWithContext (o : os) (c : Context) (name version : string)
  : lazyApp :=
  init o {| name := name; version := version; ctx := Some c; logger := None;
            services := []; done := false; cancel := None |}.

Definition AddService (a : lazyApp) (s : Service) : lazyApp :=
  {| name := name a; version := version a; ctx := ctx a; logger := logger a;
     services := services a ++ [s];
     done := done a;
     cancel := cancel a |}.

Definition set_ctx (a : lazyApp) (c : Context) : lazyApp :=
  {| name := name a; version := version a; ctx := Some c; logger := logger a;
     services := services a; done := done a; cancel := cancel a |}.

Definition AddValue (a : lazyApp) (key value : any) : result lazyApp :=
  let ctx0 := match ctx a with
              | None => backgroundCtx
              | Some c => c
              end in
  c <-! WithValue (Some ctx0) key value;
  Ok (set_ctx a c).

(** [context.Context], by its [Value] method. *)
Class GoContext (C : Type) := Value_of : C -> any -> result any.

#[export] Instance Context_GoContext : GoContext Context :=
  fun c key => Ok (Value c key).

(** [lazyApp.Value]: forwarded to the [ctx] field, which is nil until
    [AddValue] or [Run] sets it. *)
Definition lazyApp_Value (a : lazyApp) (key : any) : result any :=
  match ctx a with
  | None => Panic "invalid memory address or nil pointer dereference"
  | Some c => Ok (Value c key)
  end.

#[export] Instance lazyApp_GoContext : GoContext lazyApp := lazyApp_Value.

(** [lazyApp.Err], [lazyApp.Done] and [lazyApp.Deadline] forward to the [ctx]
    field in the same way. *)
Definition lazyApp_Err (w : world) (a : lazyApp) : result error :=
  match ctx a with
  | None => Panic "invalid memory address or nil pointer dereference"
  | Some c => Ok (Err w c)
  end.

Definition lazyApp_Done (w : world) (a : lazyApp) : result bool :=
  match ctx a with
  | None => Panic "invalid memory address or nil pointer dereference"
  | Some c => Ok (is_done w c)
  end.

Definition lazyApp_Deadline (a : lazyApp) : result (option Z) :=
  match ctx a with
  | None => Panic "invalid memory address or nil pointer dereference"
  | Some c => Ok (Deadline c)
  end.

Definition AppGet {C} `{GoContext C} (T : gotype) (app : C) : result any :=
  v <-! Value_of app (reflect_TypeOf (zero_value T));
  let '(t, ok) := type_assert T v in
  Ok (if ok then t else zero_value T).

Definition AppSet (T : gotype) (app : lazyApp) (value : any)
  : result lazyApp :=
  AddValue app (reflect_TypeOf (zero_value T)) value.

(** [AppSet(app, value)] and then [AppGet[T](app)] *)
Definition set_then_get (T : gotype) (app : lazyApp) (value : any)
  : result any :=
  app' <-! AppSet T app value;
  AppGet T app'.

Definition svc_name (s : Service) : string := Name (Desc s).

Definition set_logger (a : lazyApp) (l : Logger) : lazyApp :=
  {| name := name a; version := version a; ctx := ctx a; logger := Some l;
     services := services a; done := done a; cancel := cancel a |}.

(** [Run] up to the last [grp.Go]: the root context, the logger, the group
    and its context, and one goroutine per service. The supervisor itself is
    the parent of the group's context; its context methods forward to the
    [ctx] field, which [Run] does not change any more, so the chain goes on
    with that field's value. *)
Definition Run_start (o : os) (a : lazyApp) (w : world)
  : result (lazyApp * env Service * state) :=
  let '(a, w, deferred) :=
    match ctx a with
    | Some _ => (a, w, None)
    | None =>
        let '(c, id, w) := NotifyContext backgroundCtx [Interrupt] w in
        ({| name := name a; version := version a; ctx := Some c;
            logger := logger a; services := services a; done := done a;
            cancel := Some id |}, w, Some id)
    end in
  v <-! AppGet TLogger a;
  let l := match of_any v with
           | Some l => l
           | None =>
               if stdout_terminal o
               then {| handler := "tint"; attrs := [] |}
               else {| handler := "json"; attrs := [] |}
           end in
  let l := With (With l "app" (name a)) "version" (version a) in
  let a := set_logger a l in
  a <-! AppSet TLogger a (to_any (Some l));
  match ctx a with
  | None => Panic "invalid memory address or nil pointer dereference"
  | Some rootc =>
      let '(gctx, g, w) := WithCancel rootc w in
      let e := {| svcs := services a;
                  app_logger := l;
                  root := rootc;
                  grpCtx := gctx;
                  gid := g;
                  deferred_cancel := deferred;
                  watches_root := false |} in
      Ok (a, e, spawn_all e w
                  [RegionStart "lazyapp.Run";
                   Record_ LevelInfo l "starting app"])
  end.

(** [Run] under a schedule: what it returns, if the schedule lets it return. *)
Definition Run_under (o : os) (a : lazyApp) (w : world) (sched : list label)
  : result (option error) :=
  r <-! Run_start o a w;
  let '(_, e, st) := r in
  Ok (match exec svc_name Run e sched st with
      | Some st' => returned st'
      | None => None
      end).

End LazyApp.

(** ** Package lazycontext, which package lazyservice builds on *)

Module Lazycontext.
Import Go Ctx.

(** The token under which a value of type [T] is bound. *)
Definition token (T : gotype) : any := Some (TRtype, PType T).

(** Modelled from the spec: [lazycontext.Get] is not among the sources; the
    spec has [Get<T>(ctx)] return the value bound for type-token [T] in [ctx]
    or any ancestor, or the zero value of [T] if none is bound, and never
    fail. *)
Definition Get (T : gotype) (c : Context) : any :=
  let '(t, ok) := type_assert T (Value c (token T)) in
  if ok then t else zero_value T.

(** Modelled from the spec: [lazycontext.Set] is not among the sources; the
    spec has [Set<T>(value)] derive a new context node binding type-token [T]
    to [value], without changing an existing node. The [AppContext] it is
    called on then holds the new node. *)
Definition Set_ (T : gotype) (c : Context) (value : any) : Context :=
  valueCtx c (token T) value.

End Lazycontext.

(** ** Package lazyservice *)

Module LazyService.
Import Go Errors Slog Ctx Supervisor Os.

Record ServiceDescription := { Name : string }.

(** The [Service] interface: [Desc()] and [Run(ctx)]. *)
Record Service := {
  Desc : ServiceDescription;
  Run : Context -> behaviour
}.

Record srvFn := {
  name : string;
  f : Context -> Logger -> behaviour
}.

Record serviceFuncDesc := { desc_name : string }.

Definition serviceFuncDesc_Name (d : serviceFuncDesc) : string := desc_name d.

Definition srvFn_Run (s : srvFn) (ctx : Context) : behaviour :=
  let l := match of_any (Lazycontext.Get TLogger ctx) with
           | Some l => l
           | None => Slog.Default
           end in
  f s ctx l.

Definition srvFn_Desc (s : srvFn) : ServiceDescription :=
  {| Name := serviceFuncDesc_Name {| desc_name := name s |} |}.

Definition serviceFunc (name : string) (f : Context -> Logger -> behaviour)
  : Service :=
  let s := {| name := name; f := f |} in
  {| Desc := srvFn_Desc s; Run := srvFn_Run s |}.

(** The [manager]. [AppContext] is the context that the embedded
    [lazycontext.AppContext] holds at the moment; the [manager] is a
    [context.Context] through it. *)
Record manager := {
  AppContext : Context;
  logger : option Logger;
  services : list Service;
  done : bool;
  cancel : option nat
}.

Definition init (a : manager) : manager :=
  {| AppContext := AppContext a; logger := logger a; services := services a;
     done := true; cancel := cancel a |}.

(** [lazycontext.New()] is given as the context it makes. *)
Definition New (lazycontext_New : Context) : manager :=
  init {| AppContext := lazycontext_New; logger := None; services := [];
          done := false; cancel := None |}.

Definition NewWithContext (c : Context) : manager :=
  init {| AppContext := c; logger := None; services := []; done := false;
          cancel := None |}.

Definition AddService (a : manager) (s : Service) : manager :=
  {| AppContext := AppContext a; logger := logger a;
     services := services a ++ [s];
     done := done a;
     cancel := cancel a |}.

Definition svc_name (s : Service) : string := Name (Desc s).

Definition svc_run (s : Service) (c : Context) (_ : Logger) : behaviour :=
  Run s c.

(** [Run] up to the last [grp.Go]. The lines that made a root context for
    the interrupt signal are commented out in the source; the root is the
    context of the embedded [AppContext]. *)
Definition Run_start (o : os) (a : manager) (w : world)
  : manager * env Service * state :=
  let l := match of_any (Lazycontext.Get TLogger (AppContext a)) with
           | Some l => l
           | None =>
               if stdout_terminal o
               then {| handler := "tint"; attrs := [] |}
               else {| handler := "json"; attrs := [] |}
           end in
  let a := {| AppContext :=
                Lazycontext.Set_ TLogger (AppContext a) (to_any (Some l));
              logger := Some l;
              services := services a;
              done := done a;
              cancel := cancel a |} in
  let '(gctx, g, w) := WithCancel (AppContext a) w in
  let e := {| svcs := services a;
              app_logger := l;
              root := AppContext a;
              grpCtx := gctx;
              gid := g;
              deferred_cancel := None;
              watches_root := true |} in
  (a, e, spawn_all e w
           [RegionStart "lazyapp.Run"; Record_ LevelInfo l "starting app"]).

(** The states [Run] can be in under a schedule. *)
Definition Run_exec (o : os) (a : manager) (w : world) (sched : list label)
  : option state :=
  let '(_, e, st) := Run_start o a w in
  exec svc_name svc_run e sched st.

(** [Run] under a schedule: what it returns, if the schedule lets it return. *)
Definition Run_under (o : os) (a : manager) (w : world) (sched : list label)
  : option error :=
  match Run_exec o a w sched with
  | Some st => returned st
  | None => None
  end.

End LazyService.

(** ** Small programs to run the definitions on *)

Module Demo.
Import Go Errors Slog Ctx Supervisor Os.

Definition os0 : os :=
  {| exe_base := "lazyapp.test"; exe_mtime := None; stdout_terminal := false |}.

Definition boom : goerror := ErrorVal 1 "boom" [] [].
Definition bang : goerror := ErrorVal 2 "bang" [] [].

(** [fmt.Errorf("stopping: %w", ctx.Err())] after a cancellation *)
Definition stopping : goerror :=
  ErrorVal 3 "stopping: context canceled" [] [Canceled].

(** A service that fails at once with [err]. *)
Definition failing (name : string) (err : goerror) : LazyService.Service :=
  LazyService.serviceFunc name (fun _ _ => Ret (Some err)).

(** A service that waits for its context and returns the context's error. *)
Definition waiting (name : string) : LazyService.Service :=
  LazyService.serviceFunc name
    (fun c _ => Vis (Done_ c) (fun _ => Vis (Err_ c) (fun err => Ret err))).

(** A service that returns nil at once. *)
Definition quiet (name : string) : LazyService.Service :=
  LazyService.serviceFunc name (fun _ _ => Ret None).

Definition two_failing : LazyService.manager :=
  LazyService.AddService
    (LazyService.AddService (LazyService.NewWithContext backgroundCtx)
       (failing "a" boom))
    (failing "b" bang).

(** A root context that its maker can cancel, and the world that has made
    it. *)
Definition root0 : Context := cancelCtx backgroundCtx 0.

Definition world1 : world := {| fired := []; notify := []; next_id := 1 |}.

Definition same_name : LazyService.manager :=
  LazyService.AddService
    (LazyService.AddService (LazyService.NewWithContext root0)
       (quiet "worker"))
    (waiting "worker").

(** One service, which returns a wrapped [context.Canceled] at once. *)
Definition stops_wrapped : LazyService.manager :=
  LazyService.AddService (LazyService.NewWithContext backgroundCtx)
    (failing "w" stopping).

(** One service, which returns nil at once. *)
Definition one_quiet : LazyService.manager :=
  LazyService.AddService (LazyService.NewWithContext backgroundCtx)
    (quiet "q").

Definition app0 : LazyApp.lazyApp := LazyApp.New os0 "test" "1.0.0".

(** The state of a run under a schedule, or of no run at all. *)
Definition state_of (r : option state) : state :=
  match r with
  | Some st => st
  | None => spawn_all {| svcs := @List.nil LazyService.Service;
                         app_logger := Slog.Default;
                         root := backgroundCtx;
                         grpCtx := backgroundCtx;
                         gid := 0;
                         deferred_cancel := None;
                         watches_root := false |} empty_world []
  end.

(** Both fail; the second is the first to return. *)
Definition two_failing_sched : list label :=
  [Sched 1; Sched 0; Sched 1; Sched 0; WaitReturns].

Definition two_failing_end : state :=
  Eval vm_compute in
    state_of (LazyService.Run_exec os0 two_failing empty_world
                two_failing_sched).

(** The service is called and returns nil, and [Run] returns. *)
Definition one_quiet_sched : list label := [Sched 0; Sched 0; WaitReturns].

Definition one_quiet_end : state :=
  Eval vm_compute in
    state_of (LazyService.Run_exec os0 one_quiet empty_world one_quiet_sched).

(** The service has been called and is about to return. *)
Definition stops_wrapped_running : state :=
  Eval vm_compute in
    state_of (LazyService.Run_exec os0 stops_wrapped empty_world [Sched 0]).

(** Both have begun; the first is about to return nil, the second waits. *)
Definition same_name_early : list label := [Sched 0; Sched 1].

Definition same_name_running : state :=
  Eval vm_compute in
    state_of (LazyService.Run_exec os0 same_name world1 same_name_early).

(** The first returns nil, the root is cancelled from outside, the second
    sees it and returns the context's error. *)
Definition same_name_sched : list label :=
  [Sched 0; Sched 1; Sched 0; Fire 0 SCanceled; Watch;
   Sched 1; Sched 1; Sched 1; WaitReturns].

Definition same_name_end : state :=
  Eval vm_compute in
    state_of (LazyService.Run_exec os0 same_name world1 same_name_sched).

End Demo.

(** * Properties *)

(** ** errors.Is and wrapped-error matching *)

Module ErrorFacts.
Import Go Errors.

Lemma is_unfold e t :
  is_ e t =
  same e t || custom_is e t ||
  match e with
  | ErrorVal _ _ _ ws => existsb (fun w => is_ w t) ws
  | _ => false
  end.
Proof. destruct e; reflexivity. Qed.

Lemma is_sound t e : is_ e t = true -> Matches t e.
Proof.
  induction e as [| |i m ms ws IH] using goerror_nested_ind;
    rewrite is_unfold; intros H.
  - apply orb_prop in H as [H|H]; [|discriminate].
    apply orb_prop in H as [H|H]; [by apply Matches_same|by apply Matches_custom].
  - apply orb_prop in H as [H|H]; [|discriminate].
    apply orb_prop in H as [H|H]; [by apply Matches_same|by apply Matches_custom].
  - apply orb_prop in H as [H|H].
    + apply orb_prop in H as [H|H];
        [by apply Matches_same|by apply Matches_custom].
    + apply existsb_exists in H as (w & Hin & Hw).
      apply (Matches_unwrap t i m ms ws w).
      * by apply list_elem_of_In.
      * rewrite Forall_forall in IH. apply IH; [|done].
        by apply list_elem_of_In.
Qed.

Lemma is_complete t e : Matches t e -> is_ e t = true.
Proof.
  induction 1 as [e H|e H|i m ms ws w Hin _ IH]; rewrite is_unfold.
  - by rewrite H.
  - rewrite H. by rewrite orb_true_r.
  - apply orb_true_intro. right.
    apply existsb_exists. exists w. split; [|done].
    by apply list_elem_of_In.
Qed.

Lemma Is_Matches e t : Is (Some e) (Some t) = true <-> Matches t e.
Proof. split; [apply is_sound|apply is_complete]. Qed.

Lemma Is_nil_l t : Is None (Some t) = false.
Proof. reflexivity. Qed.

(** The test of the closure holds exactly of the benign errors. *)
Lemma benign_test err :
  Is err (Some Canceled) || Is err (Some DeadlineExceeded) = true <->
  benign err.
Proof.
  split.
  - intros H. destruct err as [e|]; [|discriminate].
    exists e. split; [done|].
    apply orb_prop in H as [H|H]; [left|right]; by apply Is_Matches.
  - intros (e & -> & [H|H]); apply orb_true_intro; [left|right];
      by apply Is_Matches.
Qed.

Lemma not_benign_test err :
  Is err (Some Canceled) || Is err (Some DeadlineExceeded) = false <->
  ~ benign err.
Proof.
  rewrite <- benign_test. destruct (_ || _); split; try done.
Qed.

End ErrorFacts.

(** ** The type-indexed store *)

Module StoreFacts.
Import Go Errors Slog Ctx Os LazyApp.

Lemma TypeOf_zero_concrete T :
  is_interface T = false ->
  reflect_TypeOf (zero_value T) = Some (TRtype, PType T).
Proof. intros H. unfold zero_value. by rewrite H. Qed.

Lemma TypeOf_zero_interface T :
  is_interface T = true -> reflect_TypeOf (zero_value T) = nil.
Proof. intros H. unfold zero_value. by rewrite H. Qed.

Lemma type_assert_has_type T v :
  is_interface T = false -> has_type T v = true -> type_assert T v = (v, true).
Proof.
  intros HT Hv. destruct v as [[D p]|]; simpl in *.
  - rewrite HT in *. apply andb_prop in Hv as [_ Hv]. by rewrite Hv.
  - congruence.
Qed.

Lemma type_assert_nil T : type_assert T nil = (zero_value T, false).
Proof. reflexivity. Qed.

Lemma Value_unbound c key : key ∉ bound_keys c -> Value c key = nil.
Proof.
  induction c as [|p IH k v|p IH id|p IH id d|p IH id sg]; simpl; intros H;
    try done; try by apply IH.
  rewrite not_elem_of_cons in H. destruct H as [Hk Hp].
  rewrite bool_decide_eq_false_2 by congruence. by apply IH.
Qed.

Lemma Value_derive1 c d key :
  binds_key key d = false -> Value (derive1 c d) key = Value c key.
Proof. destruct d; simpl; try done. by intros ->. Qed.

Lemma Value_derive c ds key :
  forallb (fun d => negb (binds_key key d)) ds = true ->
  Value (derive c ds) key = Value c key.
Proof.
  revert c. induction ds as [|d ds IH]; intros c H; [done|].
  simpl in H. apply andb_prop in H as [Hd Hds].
  unfold derive in *. simpl. rewrite IH by done.
  apply Value_derive1. by apply negb_true_iff.
Qed.

Lemma AppGet_Context T (c : Context) :
  AppGet T c =
  Ok (let '(t, ok) := type_assert T (Value c (reflect_TypeOf (zero_value T)))
      in if ok then t else zero_value T).
Proof. unfold AppGet. simpl. by destruct (type_assert _ _). Qed.

Lemma AppGet_app T (a : lazyApp) c :
  ctx a = Some c -> AppGet T a = AppGet T c.
Proof.
  intros H. unfold AppGet, Value_of, lazyApp_GoContext, lazyApp_Value,
    Context_GoContext. by rewrite H.
Qed.

(** On a context of package [context] that binds nothing for [T], the lookup
    gives the zero value. *)
Lemma AppGet_unbound T (c : Context) :
  reflect_TypeOf (zero_value T) ∉ bound_keys c ->
  AppGet T c = Ok (zero_value T).
Proof.
  intros H. rewrite AppGet_Context, (Value_unbound _ _ H). reflexivity.
Qed.

(** The same on a supervisor whose [ctx] field is set. *)
Lemma AppGet_app_unbound T (a : lazyApp) c :
  ctx a = Some c ->
  reflect_TypeOf (zero_value T) ∉ bound_keys c ->
  AppGet T a = Ok (zero_value T).
Proof. intros Ha H. rewrite (AppGet_app _ _ _ Ha). by apply AppGet_unbound. Qed.

Lemma AppGet_bound T (p : Context) v :
  is_interface T = false -> has_type T v = true ->
  AppGet T (valueCtx p (reflect_TypeOf (zero_value T)) v) = Ok v.
Proof.
  intros HT Hv. rewrite AppGet_Context. simpl.
  rewrite bool_decide_eq_true_2 by done.
  by rewrite (type_assert_has_type _ _ HT Hv).
Qed.

Lemma AppSet_concrete T a v :
  is_interface T = false ->
  AppSet T a v =
  Ok (set_ctx a (valueCtx (default backgroundCtx (ctx a))
                          (Some (TRtype, PType T)) v)).
Proof.
  intros HT. unfold AppSet, AddValue. rewrite (TypeOf_zero_concrete _ HT).
  by destruct (ctx a).
Qed.

Lemma AppSet_interface T a v :
  is_interface T = true -> AppSet T a v = Panic "nil key".
Proof.
  intros HT. unfold AppSet, AddValue. rewrite (TypeOf_zero_interface _ HT).
  by destruct (ctx a).
Qed.

(** C3, as amended: for every concrete type [T] and every value [v] of type
    [T], [AppSet] of [v] on a supervisor followed by [AppGet] of [T] on it
    returns [v]. *)
Theorem AppGet_after_AppSet T (a : lazyApp) v :
  is_interface T = false -> has_type T v = true ->
  set_then_get T a v = Ok v.
Proof.
  intros HT Hv. unfold set_then_get. rewrite (AppSet_concrete _ _ _ HT).
  simpl. erewrite AppGet_app by reflexivity.
  rewrite <- (TypeOf_zero_concrete _ HT). by apply AppGet_bound.
Qed.

Lemma AppGet_after_AppSet_witness :
  set_then_get (TDefined "testStruct" TString [])
    (New {| exe_base := "lazyapp.test"; exe_mtime := None;
            stdout_terminal := false |} "test" "1.0.0")
    (Some (TDefined "testStruct" TString [], PString "test"))
  = Ok (Some (TDefined "testStruct" TString [], PString "test")).
Proof. apply AppGet_after_AppSet; reflexivity. Defined.

(** C3, as stated, fails at an interface type: [AppSet] of a non-nil [error]
    panics, so no lookup follows and the value is not returned. *)
Lemma AppGet_after_AppSet_counterexample :
  has_type error_type (Some (errorString_ptr, PPtr (Some 1))) = true /\
  set_then_get error_type
    (New {| exe_base := "lazyapp.test"; exe_mtime := None;
            stdout_terminal := false |} "test" "1.0.0")
    (Some (errorString_ptr, PPtr (Some 1)))
  <> Ok (Some (errorString_ptr, PPtr (Some 1))).
Proof. split; [reflexivity|discriminate]. Qed.

(** C4 fails on a supervisor made by [New] and not yet given a context:
    nothing is bound on it, and [AppGet] panics in [lazyApp.Value] instead of
    returning the zero value. *)
Theorem AppGet_on_New_panics o n v T :
  AppGet T (New o n v) =
  Panic "invalid memory address or nil pointer dereference".
Proof. reflexivity. Qed.

(** C9: for an interface type the type token is nil and [AppSet] panics with
    [nil key], whatever the supervisor and the value; for any other type it
    binds the value under the type's descriptor. *)
Theorem AppSet_total_only_on_concrete T (a : lazyApp) v :
  reflect_TypeOf (zero_value T) =
    (if is_interface T then nil else Some (TRtype, PType T)) /\
  AppSet T a v =
    (if is_interface T then Panic "nil key"
     else Ok (set_ctx a (valueCtx (default backgroundCtx (ctx a))
                                  (Some (TRtype, PType T)) v))).
Proof.
  destruct (is_interface T) eqn:HT.
  - split; [by apply TypeOf_zero_interface|by apply AppSet_interface].
  - split; [by apply TypeOf_zero_concrete|by apply AppSet_concrete].
Qed.

Lemma Get_AppGet T (c : Context) :
  is_interface T = false -> AppGet T c = Ok (Lazycontext.Get T c).
Proof.
  intros HT. rewrite AppGet_Context. unfold Lazycontext.Get, Lazycontext.token.
  rewrite (TypeOf_zero_concrete _ HT). by destruct (type_assert _ _).
Qed.

(** C5: let [child] bind [v] for the concrete type [T] on a context derived
    from [parent]. Then the parent and every context derived from it that
    binds nothing for [T] itself observe for [T] what the parent binds; the
    child and every context derived from it that binds nothing for [T] itself
    observe [v]; and for any other type the child observes what the parent
    does. *)
Theorem child_binding_is_local T v (parent child : Context) :
  is_interface T = false -> has_type T v = true ->
  WithValue (Some parent) (reflect_TypeOf (zero_value T)) v = Ok child ->
  (forall ds,
     forallb (fun d => negb (binds_key (reflect_TypeOf (zero_value T)) d)) ds
       = true ->
     AppGet T (derive parent ds) = AppGet T parent) /\
  (forall ds,
     forallb (fun d => negb (binds_key (reflect_TypeOf (zero_value T)) d)) ds
       = true ->
     AppGet T (derive child ds) = Ok v) /\
  (forall U, is_interface U = false -> U <> T ->
     AppGet U child = AppGet U parent).
Proof.
  intros HT Hv Hw. unfold WithValue in Hw.
  rewrite (TypeOf_zero_concrete _ HT) in Hw. simpl in Hw.
  injection Hw as <-. rewrite <- (TypeOf_zero_concrete _ HT).
  split; [|split].
  - intros ds Hds. by rewrite !AppGet_Context, (Value_derive _ _ _ Hds).
  - intros ds Hds. rewrite AppGet_Context, (Value_derive _ _ _ Hds).
    rewrite <- AppGet_Context. by apply AppGet_bound.
  - intros U HU Hne. rewrite !AppGet_Context.
    rewrite (TypeOf_zero_concrete _ HU), (TypeOf_zero_concrete _ HT). simpl.
    rewrite bool_decide_eq_false_2; [done|]. congruence.
Qed.

Lemma child_binding_is_local_witness :
  is_interface TLogger = false /\
  has_type TLogger
    (to_any (Some {| handler := "json"; attrs := [("service", "a")] |}))
    = true /\
  AppGet TLogger
    (valueCtx (cancelCtx backgroundCtx 0) (Some (TRtype, PType TLogger))
       (to_any (Some {| handler := "json"; attrs := [("service", "a")] |})))
  = Ok (to_any (Some {| handler := "json"; attrs := [("service", "a")] |})) /\
  AppGet TLogger (timerCtx (cancelCtx backgroundCtx 0) 1 5) =
  AppGet TLogger (cancelCtx backgroundCtx 0).
Proof.
  split; [reflexivity|]. split; [reflexivity|].
  destruct (child_binding_is_local TLogger
              (to_any (Some {| handler := "json";
                               attrs := [("service", "a")] |}))
              (cancelCtx backgroundCtx 0)
              (valueCtx (cancelCtx backgroundCtx 0)
                 (Some (TRtype, PType TLogger))
                 (to_any (Some {| handler := "json";
                                  attrs := [("service", "a")] |})))
              eq_refl eq_refl eq_refl) as (Hsib & Hsub & _).
  split; [exact (Hsub [] eq_refl)|exact (Hsib [DTimer 1 5] eq_refl)].
Defined.

End StoreFacts.

(** ** The machine *)

Module MachineFacts.
Import Go Errors Slog Ctx Supervisor ErrorFacts.

Lemma classify_snd l raw : (classify l raw).2 = contribution raw.
Proof. unfold classify, contribution. by destruct (_ || _). Qed.

Lemma contribution_benign raw : benign raw -> contribution raw = None.
Proof. intros H. unfold contribution. apply benign_test in H. by rewrite H. Qed.

Lemma contribution_nil : contribution None = None.
Proof. reflexivity. Qed.

Lemma contribution_other raw : ~ benign raw -> contribution raw = raw.
Proof.
  intros H. unfold contribution. apply not_benign_test in H. by rewrite H.
Qed.

Lemma contribution_cases raw :
  contribution raw = None \/ contribution raw = raw.
Proof. unfold contribution. destruct (_ || _); auto. Qed.

Lemma first_error_app errs x :
  first_error (errs ++ [x]) =
  match first_error errs with Some e => Some e | None => x end.
Proof.
  induction errs as [|[e|] errs IH]; simpl; [by destruct x|done|done].
Qed.

Lemma first_error_elem errs e :
  first_error errs = Some e -> Some e ∈ errs.
Proof.
  induction errs as [|[x|] errs IH]; simpl; intros H; [done| |].
  - injection H as ->. apply list_elem_of_here.
  - apply list_elem_of_further. by apply IH.
Qed.

Lemma first_error_returned (rs : list (nat * error)) x :
  first_error (map (fun r => contribution r.2) rs) = Some x ->
  exists i, (i, Some x) ∈ rs.
Proof.
  intros H. apply first_error_elem in H.
  apply list_elem_of_In, in_map_iff in H as ([i raw] & Heq & Hin).
  simpl in Heq. exists i.
  destruct (contribution_cases raw) as [Hn|Hn]; rewrite Hn in Heq; [done|].
  subst raw. by apply list_elem_of_In.
Qed.

Lemma first_error_all_nil errs :
  Forall (fun x => x = None) errs -> first_error errs = None.
Proof. induction 1 as [|x errs -> _ IH]; done. Qed.

Lemma deliver_fold (sig : signal) (rs : list (nat * list signal)) w :
  let w' := fold_left
    (fun w r => if bool_decide (sig ∈ r.2) then fire r.1 SCanceled w else w)
    rs w in
  fired w' =
    fired w ++ map (fun r => (r.1, SCanceled))
                   (List.filter (fun r => bool_decide (sig ∈ r.2)) rs) /\
  notify w' = notify w /\ next_id w' = next_id w.
Proof.
  revert w. induction rs as [|r rs IH]; intros w; simpl.
  - by rewrite app_nil_r.
  - destruct (IH (if bool_decide (sig ∈ r.2) then fire r.1 SCanceled w else w))
      as (Hf & Hn & Hi).
    rewrite Hf, Hn, Hi. destruct (bool_decide (sig ∈ r.2)); simpl; [|done].
    by rewrite <- app_assoc.
Qed.

Lemma deliver_notify sig w : notify (deliver sig w) = notify w.
Proof. apply (deliver_fold sig (notify w) w). Qed.

Lemma deliver_fired sig w id s :
  (id, s) ∈ fired (deliver sig w) <->
  (id, s) ∈ fired w \/
  (s = SCanceled /\ exists sigs, (id, sigs) ∈ notify w /\ sig ∈ sigs).
Proof.
  unfold deliver. destruct (deliver_fold sig (notify w) w) as (-> & _ & _).
  rewrite elem_of_app. apply or_iff_compat_l.
  rewrite list_elem_of_In, in_map_iff. split.
  - intros ([id' sigs] & [= <- <-] & Hin). apply filter_In in Hin as [Hin Hs].
    split; [done|]. exists sigs. split; [by apply list_elem_of_In|].
    by apply bool_decide_eq_true in Hs.
  - intros (-> & sigs & Hin & Hs). exists (id, sigs). split; [done|].
    apply filter_In. split; [by apply list_elem_of_In|].
    by apply bool_decide_eq_true.
Qed.

Lemma Err_fired w c :
  Err w c <> None <-> exists id s, (id, s) ∈ fired w /\ id ∈ cancel_ids c.
Proof.
  unfold Err. split.
  - destruct (List.find _ _) as [[id s]|] eqn:Hf; [|done]. intros _.
    apply find_some in Hf as [Hin Hid]. exists id, s.
    split; [by apply list_elem_of_In|]. by apply bool_decide_eq_true in Hid.
  - intros (id & s & Hin & Hid).
    destruct (List.find _ _) as [x|] eqn:Hf; [done|].
    apply list_elem_of_In in Hin.
    apply (find_none _ _ Hf (id, s)) in Hin as Hn.
    simpl in Hn. by apply bool_decide_eq_false in Hn.
Qed.

Lemma Err_done w c : is_done w c = true <-> Err w c <> None.
Proof. unfold is_done. destruct (Err w c); split; done. Qed.

Lemma Err_parent w c parent :
  (forall id, id ∈ cancel_ids parent -> id ∈ cancel_ids c) ->
  Err w parent <> None -> Err w c <> None.
Proof.
  intros Hsub. rewrite !Err_fired. intros (id & s & Hin & Hid).
  exists id, s. auto.
Qed.

Section Facts.

Variable Svc : Type.
Variable svc_name : Svc -> string.
Variable svc_run : Svc -> Context -> Logger -> behaviour.
Variable e : env Svc.

Local Abbreviation step := (step svc_name svc_run e).
Local Abbreviation exec := (exec svc_name svc_run e).
Local Abbreviation move := (move svc_name svc_run e).
Local Abbreviation finish_task := (finish_task svc_name e).

Lemma finish_task_tasks i s l raw st :
  tasks (finish_task i s l raw st) =
  <[i := Finished (contribution raw)]> (tasks st).
Proof.
  unfold Supervisor.finish_task. rewrite <- (classify_snd l).
  by destruct (classify l raw).
Qed.

Lemma finish_task_returns i s l raw st :
  returns (finish_task i s l raw st) = returns st ++ [(i, raw)].
Proof. unfold Supervisor.finish_task. by destruct (classify l raw). Qed.

Lemma finish_task_returned i s l raw st :
  returned (finish_task i s l raw st) = returned st.
Proof. unfold Supervisor.finish_task. by destruct (classify l raw). Qed.

Lemma finish_task_group i s l raw st :
  group (finish_task i s l raw st) =
  match contribution raw with
  | Some x => if errOnce (group st) then group st
              else {| err := Some x; errOnce := true |}
  | None => group st
  end.
Proof.
  unfold Supervisor.finish_task. rewrite <- (classify_snd l).
  destruct (classify l raw) as [evs [x|]]; simpl; [|done].
  by destruct (errOnce (group st)).
Qed.

Lemma finish_task_cancels i s l raw st :
  cancels (finish_task i s l raw st) =
  match contribution raw with
  | Some x => if errOnce (group st) then cancels st
              else fire (gid e) SCanceled (cancels st)
  | None => cancels st
  end.
Proof.
  unfold Supervisor.finish_task. rewrite <- (classify_snd l).
  destruct (classify l raw) as [evs [x|]]; simpl; [|done].
  by destruct (errOnce (group st)).
Qed.

Lemma finish_task_log i s l raw st :
  log (finish_task i s l raw st) =
  log st ++ (classify l raw).1 ++ [RegionEnd ("service:" +:+ svc_name s)].
Proof. unfold Supervisor.finish_task. by destruct (classify l raw). Qed.

(** The function and the relation agree. *)
Lemma step_move lb st st' : step lb st = Some st' -> move st st'.
Proof.
  intros Hs. destruct lb as [i| |id s|sig|]; simpl in Hs.
  - destruct (tasks st !! i) as [[|ctx l p|r]|] eqn:Ht; try done;
      destruct (svcs e !! i) as [s|] eqn:Hsv; try done.
    + unfold start_task in Hs. simpl in Hs. injection Hs as <-.
      by eapply move_start.
    + unfold run_task in Hs. destruct (observe p) as [raw|p'|X ev k] eqn:Ho.
      * injection Hs as <-. by eapply move_return.
      * injection Hs as <-. by eapply move_run.
      * destruct ev as [c|c|ev].
        -- destruct (is_done _ _); [|done]. injection Hs as <-.
           by eapply move_run.
        -- injection Hs as <-. by eapply move_run.
        -- injection Hs as <-. by eapply move_run.
  - destruct (watches_root e); [|done]. destruct (watcher_fired st); [done|].
    simpl in Hs. destruct (is_done _ _) eqn:Hd; [|done].
    injection Hs as <-. by apply move_watch.
  - destruct (bool_decide _) eqn:Hg; [done|]. injection Hs as <-.
    apply move_fire. by apply bool_decide_eq_false in Hg.
  - injection Hs as <-. apply move_deliver.
  - destruct (returned st) eqn:Hr; [done|].
    destruct (forallb is_finished (tasks st)) eqn:Hall; [|done].
    injection Hs as <-. by apply move_wait.
Qed.

(** A service that returns can always make its move. *)
Lemma step_return i s ctx l p raw st :
  tasks st !! i = Some (Running ctx l p) -> svcs e !! i = Some s ->
  observe p = RetF raw ->
  step (Sched i) st = Some (finish_task i s l raw st).
Proof.
  intros Ht Hs Ho. simpl. rewrite Ht, Hs. unfold run_task. by rewrite Ho.
Qed.

Lemma all_finished_lookup (ts : list task) i t :
  forallb is_finished ts = true -> ts !! i = Some t -> is_finished t = true.
Proof.
  intros H Hi. rewrite forallb_forall in H. apply H.
  apply list_elem_of_In. by eapply list_elem_of_lookup_2.
Qed.

Lemma consistent_internal st i t0 t1 evs :
  consistent e st ->
  tasks st !! i = Some t0 -> is_finished t0 = false -> is_finished t1 = false ->
  consistent e (set_task i t1 evs st).
Proof.
  intros [Hlen Herr Honce Hnd Hfin Hret] Ht Ht0 Ht1.
  split; simpl; try done.
  - by rewrite length_insert.
  - intros j r. rewrite <- Hfin.
    destruct (decide (i = j)) as [<-|Hne].
    + rewrite list_lookup_insert_eq by (by eapply lookup_lt_Some).
      rewrite Ht. split; intros [= ->]; done.
    + by rewrite list_lookup_insert_ne.
  - intros r H. destruct (Hret r H) as [_ Hall].
    pose proof (all_finished_lookup _ _ _ Hall Ht). congruence.
Qed.

Lemma not_returned_while_running st i ctx l p :
  consistent e st -> tasks st !! i = Some (Running ctx l p) ->
  returned st = None /\ (i ∉ (returns st).*1).
Proof.
  intros [Hlen Herr Honce Hnd Hfin Hret] Ht. split.
  - destruct (returned st) as [r|] eqn:Hr; [|done].
    destruct (Hret r eq_refl) as [_ Hall].
    by pose proof (all_finished_lookup _ _ _ Hall Ht).
  - intros Hin. apply list_elem_of_fmap in Hin as ([j raw] & -> & Hin).
    simpl in Ht. assert (tasks st !! j = Some (Finished (contribution raw))).
    { apply Hfin. by exists raw. }
    congruence.
Qed.

Lemma consistent_finish st i s ctx l p raw :
  consistent e st -> tasks st !! i = Some (Running ctx l p) ->
  consistent e (finish_task i s l raw st).
Proof.
  intros Hc Ht.
  destruct (not_returned_while_running _ _ _ _ _ Hc Ht) as [Hnone Hnot].
  destruct Hc as [Hlen Herr Honce Hnd Hfin Hret].
  pose proof (lookup_lt_Some _ _ _ Ht) as Hlt.
  split.
  - by rewrite finish_task_tasks, length_insert.
  - rewrite finish_task_group. unfold contributions.
    rewrite finish_task_returns, map_app. simpl. rewrite first_error_app.
    fold (contributions st). rewrite <- Herr.
    destruct (contribution raw) as [x|].
    + rewrite Honce. destruct (err (group st)) as [y|] eqn:Hy.
      * rewrite bool_decide_eq_true_2 by eauto. by rewrite Hy.
      * rewrite bool_decide_eq_false_2 by (by intros [? ?]). done.
    + by destruct (err (group st)).
  - rewrite finish_task_group.
    destruct (contribution raw) as [x|]; [|done].
    destruct (errOnce (group st)) eqn:Ho; [congruence|]. done.
  - rewrite finish_task_returns, fmap_app. simpl.
    apply NoDup_app. split; [done|]. split; [|apply NoDup_singleton].
    intros j Hj Hj'. apply list_elem_of_singleton in Hj'. by subst.
  - intros j r. rewrite finish_task_tasks, finish_task_returns.
    destruct (decide (i = j)) as [<-|Hne].
    + rewrite list_lookup_insert_eq by done. split.
      * intros [= <-]. exists raw. split; [|done].
        apply elem_of_app. right. by apply list_elem_of_singleton.
      * intros (raw' & Hin & ->). apply elem_of_app in Hin as [Hin|Hin].
        -- exfalso. apply Hnot. apply list_elem_of_fmap. by exists (i, raw').
        -- apply list_elem_of_singleton in Hin. by injection Hin as ->.
    + rewrite list_lookup_insert_ne by done. rewrite Hfin.
      split; intros (raw' & Hin & ->); exists raw'; (split; [|done]).
      * apply elem_of_app. by left.
      * apply elem_of_app in Hin as [Hin|Hin]; [done|].
        apply list_elem_of_singleton in Hin. congruence.
  - rewrite finish_task_returned, Hnone. done.
Qed.

Lemma move_consistent st st' : consistent e st -> move st st' -> consistent e st'.
Proof.
  intros Hc Hm.
  destruct Hm as [i s l ctx Ht Hs _ _|i ctx l p p' evs Ht|i s ctx l p raw Ht Hs Ho
                 |Hd|id s Hid|sig|Hr Hall].
  - by eapply (consistent_internal st i Spawned).
  - by eapply (consistent_internal st i (Running ctx l p)).
  - by eapply consistent_finish.
  - by destruct Hc.
  - by destruct Hc.
  - by destruct Hc.
  - destruct Hc as [Hlen Herr Honce Hnd Hfin Hret]. split; try done.
    simpl. by intros r [= <-].
Qed.

Lemma exec_invariant (P : state -> Prop) :
  (forall st st', P st -> move st st' -> P st') ->
  forall sched st st', P st -> exec sched st = Some st' -> P st'.
Proof.
  intros Hstep sched. induction sched as [|lb sched IH]; simpl; intros st st' HP Hx.
  - by injection Hx as <-.
  - destruct (step lb st) as [st1|] eqn:Hs; [|done].
    eapply IH; [|done]. eapply Hstep; [done|]. by eapply step_move.
Qed.

Lemma exec_consistent sched st st' :
  consistent e st -> exec sched st = Some st' -> consistent e st'.
Proof. apply (exec_invariant (consistent e)), move_consistent. Qed.

Lemma spawn_all_consistent w evs : consistent e (spawn_all e w evs).
Proof.
  split; simpl; try done.
  - by rewrite length_map.
  - apply NoDup_nil_2.
  - intros i r. split.
    + intros H. apply list_lookup_fmap_Some in H as (? & ? & ?). done.
    + intros (raw & Hin & _). by apply elem_of_nil in Hin.
Qed.

(** When [Run] has returned, every closure has returned exactly once. *)
Lemma returned_all st r :
  consistent e st -> returned st = Some r ->
  (returns st).*1 ≡ₚ seq 0 (length (svcs e)).
Proof.
  intros [Hlen Herr Honce Hnd Hfin Hret] Hr.
  destruct (Hret r Hr) as [_ Hall].
  apply NoDup_Permutation; [done|apply NoDup_seq|].
  intros i. rewrite elem_of_seq, <- Hlen. split.
  - intros Hin. apply list_elem_of_fmap in Hin as ([j raw] & -> & Hin). simpl.
    assert (tasks st !! j = Some (Finished (contribution raw))) as Hj.
    { apply Hfin. by exists raw. }
    apply lookup_lt_Some in Hj. lia.
  - intros [_ Hlt]. simpl in Hlt.
    destruct (lookup_lt_is_Some_2 _ _ Hlt) as [t Ht].
    pose proof (all_finished_lookup _ _ _ Hall Ht) as Hf.
    destruct t as [| |ret]; try done.
    apply Hfin in Ht as (raw & Hin & _).
    apply list_elem_of_fmap. by exists (i, raw).
Qed.

Lemma move_group_cancel st st' :
  (gid e ∉ (notify (cancels st)).*1) /\ group_cancel_explained e st ->
  move st st' ->
  (gid e ∉ (notify (cancels st')).*1) /\ group_cancel_explained e st'.
Proof.
  unfold group_cancel_explained. intros [Hn Hx] Hm.
  destruct Hm as [i s l ctx Ht Hs _ _|i ctx l p p' evs Ht|i s ctx l p raw Ht Hs Ho
                 |Hd|id s Hid|sig|Hr Hall]; try done.
  - rewrite finish_task_cancels, finish_task_group, finish_task_returned.
    destruct (contribution raw) as [x|]; [|done].
    destruct (errOnce (group st)); [done|]. simpl. split; [done|].
    intros _. left. by eexists.
  - simpl. split; [done|]. intros [s' Hin].
    apply elem_of_app in Hin as [Hin|Hin]; [by eauto|].
    apply list_elem_of_singleton in Hin. congruence.
  - simpl. rewrite deliver_notify. split; [done|]. intros [s' Hin].
    apply deliver_fired in Hin as [Hin|(_ & sigs & Hin & _)]; [by eauto|].
    exfalso. apply Hn. apply list_elem_of_fmap. by exists (gid e, sigs).
  - split.
    + simpl. by destruct (deferred_cancel e).
    + intros _. right. by eexists.
Qed.

Lemma move_under_group st st' :
  under_group e st -> move st st' -> under_group e st'.
Proof.
  unfold under_group. intros Hu Hm.
  destruct Hm as [i s l ctx Ht Hs _ Hctx|i ctx l p p' evs Ht|i s ctx l p raw Ht Hs Ho
                 |Hd|id s Hid|sig|Hr Hall]; try done.
  - intros j ctx' l' q. simpl. destruct (decide (i = j)) as [<-|Hne].
    + rewrite list_lookup_insert_eq by (by eapply lookup_lt_Some).
      intros [= <- <- <-]. by eauto.
    + rewrite list_lookup_insert_ne by done. apply Hu.
  - intros j ctx' l' q. simpl. destruct (decide (i = j)) as [<-|Hne].
    + rewrite list_lookup_insert_eq by (by eapply lookup_lt_Some).
      intros [= <- <- <-]. by eapply Hu.
    + rewrite list_lookup_insert_ne by done. apply Hu.
  - intros j ctx' l' q. rewrite finish_task_tasks.
    destruct (decide (i = j)) as [<-|Hne].
    + by rewrite list_lookup_insert_eq by (by eapply lookup_lt_Some).
    + rewrite list_lookup_insert_ne by done. apply Hu.
Qed.

Lemma move_notify st st' :
  move st st' -> notify (cancels st') = notify (cancels st).
Proof.
  intros Hm.
  destruct Hm as [i s l ctx Ht Hs _ Hctx|i ctx l p p' evs Ht|i s ctx l p raw Ht Hs Ho
                 |Hd|id s Hid|sig|Hr Hall]; try done.
  - rewrite finish_task_cancels. destruct (contribution raw); [|done].
    by destruct (errOnce _).
  - simpl. apply deliver_notify.
  - simpl. by destruct (deferred_cancel e).
Qed.

(** A closure that returns nil leaves the group, the contexts and the other
    closures as they are. *)
Lemma finish_nil_frame i s l raw st :
  contribution raw = None ->
  cancels (finish_task i s l raw st) = cancels st /\
  group (finish_task i s l raw st) = group st /\
  forall j, j <> i ->
    tasks (finish_task i s l raw st) !! j = tasks st !! j.
Proof.
  intros Hc. rewrite finish_task_cancels, finish_task_group, finish_task_tasks, Hc.
  repeat split. intros j Hj. by rewrite list_lookup_insert_ne.
Qed.

(** A closure that begins binds its logger on a context of its own: the
    cancellations, the group and every other closure stay as they were. *)
Lemma start_is_local i st st' :
  tasks st !! i = Some Spawned -> step (Sched i) st = Some st' ->
  cancels st' = cancels st /\ group st' = group st /\
  (forall j, j <> i -> tasks st' !! j = tasks st !! j) /\
  exists s l,
    svcs e !! i = Some s /\
    l = With (app_logger e) "service" (svc_name s) /\
    tasks st' !! i =
      Some (Running (valueCtx (grpCtx e) (Some (TRtype, PType TLogger))
                       (to_any (Some l)))
              l
              (svc_run s (valueCtx (grpCtx e) (Some (TRtype, PType TLogger))
                            (to_any (Some l))) l)).
Proof.
  intros Ht Hs. simpl in Hs. rewrite Ht in Hs.
  destruct (svcs e !! i) as [s|] eqn:Hsv; [|done].
  unfold start_task in Hs. simpl in Hs. injection Hs as <-. simpl.
  repeat split.
  - intros j Hj. by apply list_lookup_insert_ne.
  - exists s, (With (app_logger e) "service" (svc_name s)).
    repeat split. apply list_lookup_insert_eq. by eapply lookup_lt_Some.
Qed.

End Facts.
End MachineFacts.

(** ** Runs that come to an end *)

Module ProgressFacts.
Import Go Errors Slog Ctx Supervisor Os ErrorFacts MachineFacts.

Section Progress.

Variable Svc : Type.
Variable svc_name : Svc -> string.
Variable svc_run : Svc -> Context -> Logger -> behaviour.
Variable e : env Svc.

Local Abbreviation step := (step svc_name svc_run e).
Local Abbreviation exec := (exec svc_name svc_run e).

Lemma exec_cons lb sched st st' :
  step lb st = Some st' -> exec (lb :: sched) st = exec sched st'.
Proof. intros H. simpl. by rewrite H. Qed.

Lemma exec_app s1 s2 st st1 st2 :
  exec s1 st = Some st1 -> exec s2 st1 = Some st2 ->
  exec (s1 ++ s2) st = Some st2.
Proof.
  revert st. induction s1 as [|lb s1 IH]; simpl; intros st H1 H2.
  - by injection H1 as ->.
  - destruct (step lb st) as [st'|]; [|done]. by apply IH.
Qed.

Lemma set_task_lookup i t evs st :
  i < length (tasks st) ->
  tasks (set_task i t evs st) !! i = Some t /\
  (forall j, j <> i -> tasks (set_task i t evs st) !! j = tasks st !! j) /\
  returned (set_task i t evs st) = returned st /\
  length (tasks (set_task i t evs st)) = length (tasks st).
Proof.
  intros Hi. simpl. split; [by apply list_lookup_insert_eq|].
  split; [|by rewrite length_insert].
  intros j Hj. by apply list_lookup_insert_ne.
Qed.

(** A running service that returns unaided is brought to its return by
    scheduling it, whatever else is the case. *)
Lemma drive_running p :
  returns_unaided p ->
  forall st i s ctx l,
    tasks st !! i = Some (Running ctx l p) -> svcs e !! i = Some s ->
    exists n st',
      exec (replicate n (Sched i)) st = Some st' /\
      (exists r, tasks st' !! i = Some (Finished r)) /\
      (forall j, j <> i -> tasks st' !! j = tasks st !! j) /\
      returned st' = returned st /\
      length (tasks st') = length (tasks st).
Proof.
  induction 1 as [p r Ho|p p' Ho _ IH|p c k Ho _ IH|p ev k Ho _ IH];
    intros st i s ctx l Ht Hs;
    pose proof (lookup_lt_Some _ _ _ Ht) as Hlt.
  - exists 1, (finish_task svc_name e i s l r st). split.
    { simpl. rewrite Ht, Hs. unfold run_task. by rewrite Ho. }
    rewrite finish_task_tasks, finish_task_returned, length_insert.
    split; [exists (contribution r); by apply list_lookup_insert_eq|].
    split; [|done]. intros j Hj. by apply list_lookup_insert_ne.
  - destruct (set_task_lookup i (Running ctx l p') [] st Hlt)
      as (Hi & Ho' & Hr & Hl).
    destruct (IH _ i s ctx l Hi Hs) as (n & st' & Hx & Hf & Hoth & Hret & Hlen).
    exists (S n), st'. split; [|split; [done|split; [|split; congruence]]].
    + simpl. rewrite Ht, Hs. unfold run_task. by rewrite Ho.
    + intros j Hj. rewrite (Hoth j Hj). by apply Ho'.
  - destruct (set_task_lookup i (Running ctx l (k (Err (cancels st) c))) [] st
                Hlt) as (Hi & Ho' & Hr & Hl).
    destruct (IH _ _ i s ctx l Hi Hs) as (n & st' & Hx & Hf & Hoth & Hret & Hlen).
    exists (S n), st'. split; [|split; [done|split; [|split; congruence]]].
    + simpl. rewrite Ht, Hs. unfold run_task. by rewrite Ho.
    + intros j Hj. rewrite (Hoth j Hj). by apply Ho'.
  - destruct (set_task_lookup i (Running ctx l (k tt)) [ev] st Hlt)
      as (Hi & Ho' & Hr & Hl).
    destruct (IH _ i s ctx l Hi Hs) as (n & st' & Hx & Hf & Hoth & Hret & Hlen).
    exists (S n), st'. split; [|split; [done|split; [|split; congruence]]].
    + simpl. rewrite Ht, Hs. unfold run_task. by rewrite Ho.
    + intros j Hj. rewrite (Hoth j Hj). by apply Ho'.
Qed.

Hypothesis services_return :
  forall s ctx l, s ∈ svcs e -> returns_unaided (svc_run s ctx l).

(** Scheduling the services one after the other brings each to its return. *)
Lemma drive_all st0 :
  length (tasks st0) = length (svcs e) ->
  (forall i, i < length (svcs e) -> tasks st0 !! i = Some Spawned) ->
  returned st0 = None ->
  forall k, k <= length (svcs e) ->
    exists sched st,
      exec sched st0 = Some st /\
      (forall i, i < k -> exists r, tasks st !! i = Some (Finished r)) /\
      (forall i, k <= i -> tasks st !! i = tasks st0 !! i) /\
      returned st = None /\
      length (tasks st) = length (svcs e).
Proof.
  intros Hlen Hsp Hret k. induction k as [|k IH]; intros Hk.
  - exists [], st0. repeat split; try done. intros i Hi. lia.
  - destruct IH as (sched & st & Hx & Hfin & Hrest & Hr & Hl); [lia|].
    destruct (lookup_lt_is_Some_2 (svcs e) k) as [s Hs]; [lia|].
    assert (tasks st !! k = Some Spawned) as Hk'.
    { rewrite Hrest by lia. apply Hsp. lia. }
    assert (k < length (tasks st)) as Hlt by lia.
    pose (l := With (app_logger e) "service" (svc_name s)).
    pose (ctx := valueCtx (grpCtx e) (Some (TRtype, PType TLogger))
                   (to_any (Some l))).
    pose (st1 := set_task k (Running ctx l (svc_run s ctx l))
                   [RegionStart ("service:" +:+ svc_name s);
                    Record_ LevelInfo l "starting service"] st).
    assert (step (Sched k) st = Some st1) as Hstart.
    { simpl. by rewrite Hk', Hs. }
    destruct (set_task_lookup k (Running ctx l (svc_run s ctx l))
                [RegionStart ("service:" +:+ svc_name s);
                 Record_ LevelInfo l "starting service"] st Hlt)
      as (Hi & Ho & Hr1 & Hl1). fold st1 in Hi, Ho, Hr1, Hl1.
    destruct (drive_running _ (services_return s ctx l
                                 (list_elem_of_lookup_2 _ _ _ Hs))
                st1 k s ctx l Hi Hs)
      as (n & st2 & Hx2 & Hf2 & Hoth & Hret2 & Hlen2).
    exists (sched ++ Sched k :: replicate n (Sched k)), st2.
    split; [|split; [|split; [|split; congruence]]].
    + eapply exec_app; [done|]. by rewrite (exec_cons _ _ _ _ Hstart).
    + intros i Hi'. destruct (decide (i = k)) as [->|Hne]; [done|].
      rewrite (Hoth i Hne), (Ho i Hne). apply Hfin. lia.
    + intros i Hi'. rewrite (Hoth i) by lia. rewrite (Ho i) by lia.
      apply Hrest. lia.
Qed.

(** So there is a schedule under which [Run] returns. *)
Lemma can_return w evs :
  exists sched st,
    exec sched (spawn_all e w evs) = Some st /\ is_Some (returned st).
Proof.
  destruct (drive_all (spawn_all e w evs)) with (k := length (svcs e))
    as (sched & st & Hx & Hfin & _ & Hr & Hl); try done.
  - simpl. by rewrite length_map.
  - intros i Hi. simpl. rewrite list_lookup_fmap.
    by destruct (lookup_lt_is_Some_2 (svcs e) i Hi) as [s ->].
  - assert (forallb is_finished (tasks st) = true) as Hall.
    { apply forallb_forall. intros t Ht. apply list_elem_of_In in Ht.
      apply list_elem_of_lookup in Ht as [i Hi].
      destruct (Hfin i) as [r Hr'].
      - rewrite <- Hl. by eapply lookup_lt_Some.
      - rewrite Hi in Hr'. by injection Hr' as ->. }
    exists (sched ++ [WaitReturns]), (wait_returns e st). split.
    + eapply exec_app; [done|]. apply exec_cons with (sched := []).
      simpl. by rewrite Hr, Hall.
    + by eexists.
Qed.

End Progress.
End ProgressFacts.

(** ** The closure of a service *)

Module ClosureFacts.
Import Go Errors Slog Ctx Supervisor Os ErrorFacts MachineFacts Demo.

Section Closure.

Variable Svc : Type.
Variable svc_name : Svc -> string.
Variable svc_run : Svc -> Context -> Logger -> behaviour.
Variable e : env Svc.

(** C2: when a service returns [raw], its closure can return, and what it
    contributes is nil if [raw] matches [context.Canceled] or
    [context.DeadlineExceeded] through any chain of wrapping, whatever the
    service, and [raw] itself otherwise, after a record of the error's
    message at error level. *)
Theorem closure_contributes i s ctx l p raw st :
  tasks st !! i = Some (Running ctx l p) -> svcs e !! i = Some s ->
  observe p = RetF raw ->
  exists st',
    step svc_name svc_run e (Sched i) st = Some st' /\
    tasks st' !! i = Some (Finished (contribution raw)) /\
    returns st' = returns st ++ [(i, raw)] /\
    (benign raw ->
       contribution raw = None /\
       log st' = log st ++ [Record_ LevelInfo l "stopped";
                            RegionEnd ("service:" +:+ svc_name s)]) /\
    (~ benign raw ->
       contribution raw = raw /\
       forall x, raw = Some x ->
         log st' = log st ++ [Record_ LevelError l (Error x);
                              Record_ LevelInfo l "app gracefully stoped";
                              RegionEnd ("service:" +:+ svc_name s)]).
Proof.
  intros Ht Hs Ho. exists (finish_task svc_name e i s l raw st).
  split; [by eapply step_return|].
  split.
  { rewrite finish_task_tasks. apply list_lookup_insert_eq.
    by eapply lookup_lt_Some. }
  split; [apply finish_task_returns|].
  rewrite finish_task_log. unfold classify. split.
  - intros Hb. split; [by apply contribution_benign|].
    apply benign_test in Hb. by rewrite Hb.
  - intros Hb. split; [by apply contribution_other|].
    intros x ->. apply not_benign_test in Hb. by rewrite Hb.
Qed.

End Closure.

Lemma closure_contributes_witness :
  benign (Some stopping) /\
  (exists ctx l,
     tasks stops_wrapped_running !! 0 =
     Some (Running ctx l (Ret (Some stopping)))) /\
  exists st',
    step LazyService.svc_name LazyService.svc_run
      (LazyService.Run_start os0 stops_wrapped empty_world).1.2 (Sched 0)
      stops_wrapped_running = Some st' /\
    tasks st' !! 0 = Some (Finished None) /\
    log st' =
      log stops_wrapped_running ++
      [Record_ LevelInfo {| handler := "json"; attrs := [("service", "w")] |}
         "stopped";
       RegionEnd "service:w"].
Proof.
  assert (benign (Some stopping)) as Hb.
  { exists stopping. split; [reflexivity|]. left. by apply is_sound. }
  split; [exact Hb|]. split; [by eexists _, _|].
  destruct (closure_contributes LazyService.Service LazyService.svc_name
              LazyService.svc_run
              (LazyService.Run_start os0 stops_wrapped empty_world).1.2
              0 (failing "w" stopping) _ _ _ (Some stopping)
              stops_wrapped_running eq_refl eq_refl eq_refl)
    as (st' & Hs & Ht & _ & Hben & _).
  destruct (Hben Hb) as [Hn Hl]. exists st'.
  split; [exact Hs|]. split; [|exact Hl]. by rewrite Ht, Hn.
Defined.

End ClosureFacts.

(** ** [manager.Run] *)

Module RunFacts.
Import Go Errors Slog Ctx Supervisor Os ErrorFacts MachineFacts ProgressFacts.
Import LazyService Demo.

Lemma Run_start_shape o a w :
  exists a' e st0,
    Run_start o a w = (a', e, st0) /\
    svcs e = services a /\
    gid e = next_id w /\
    grpCtx e = cancelCtx (root e) (next_id w) /\
    st0 = spawn_all e {| fired := fired w; notify := notify w;
                         next_id := S (next_id w) |}
            [RegionStart "lazyapp.Run";
             Record_ LevelInfo (app_logger e) "starting app"].
Proof. unfold Run_start. simpl. eexists _, _, _. repeat split. Qed.

Lemma Run_exec_consistent o a w sched st :
  Run_exec o a w sched = Some st ->
  consistent (Run_start o a w).1.2 st.
Proof.
  unfold Run_exec.
  destruct (Run_start_shape o a w) as (a' & e & st0 & -> & _ & _ & _ & ->).
  simpl. apply exec_consistent, spawn_all_consistent.
Qed.

Lemma Run_start_svcs o a w : svcs (Run_start o a w).1.2 = services a.
Proof. reflexivity. Qed.

Lemma Run_returned_first o a w sched st r :
  Run_exec o a w sched = Some st -> returned st = Some r ->
  r = first_error (contributions st).
Proof.
  intros Hx Hr. pose proof (Run_exec_consistent _ _ _ _ _ Hx) as Hc.
  destruct (c_returned Hc r Hr) as [-> _]. apply (c_err Hc).
Qed.

Lemma Run_returned_all o a w sched st r :
  Run_exec o a w sched = Some st -> returned st = Some r ->
  (returns st).*1 ≡ₚ seq 0 (length (services a)).
Proof.
  intros Hx Hr. pose proof (Run_exec_consistent _ _ _ _ _ Hx) as Hc.
  rewrite <- (Run_start_svcs o a w). by eapply returned_all.
Qed.

(** If every service returns unaided, some schedule lets [Run] return. *)
Lemma Run_can_return o a w :
  (forall s ctx, s ∈ services a -> returns_unaided (Run s ctx)) ->
  exists sched r, Run_under o a w sched = Some r.
Proof.
  intros Hs. unfold Run_under, Run_exec.
  destruct (Run_start_shape o a w) as (a' & e & st0 & -> & Hsv & _ & _ & ->).
  destruct (can_return Service svc_name svc_run e) with (w := {| fired := fired w; notify := notify w; next_id := S (next_id w) |})
    (evs := [RegionStart "lazyapp.Run";
             Record_ LevelInfo (app_logger e) "starting app"])
    as (sched & st & Hx & [r Hr]).
  - intros s ctx l Hin. apply Hs. by rewrite <- Hsv.
  - exists sched, r. by rewrite Hx.
Qed.

(** C1: in every state of a run, once all closures have returned [Run] can
    return, and it returns the group's error; whenever [Run] has returned, it
    returned the first non-nil contribution in the order the closures
    returned, every closure having returned exactly once: nil if all
    contributed nil, otherwise an error that some service returned, and with
    two services that failed with non-benign errors, one of the two errors.
    If every service returns unaided, some schedule lets [Run] return. *)
Theorem Run_returns_first_error o a w :
  (forall sched st,
     Run_exec o a w sched = Some st ->
     (returned st = None -> forallb is_finished (tasks st) = true ->
      exists st',
        step svc_name svc_run (Run_start o a w).1.2 WaitReturns st
          = Some st' /\
        returned st' = Some (first_error (contributions st))) /\
     (forall r,
        returned st = Some r ->
        r = first_error (contributions st) /\
        (returns st).*1 ≡ₚ seq 0 (length (services a)) /\
        (Forall (fun c => c = None) (contributions st) -> r = None) /\
        (forall x, r = Some x -> exists i, (i, Some x) ∈ returns st) /\
        (forall e1 e2,
           returns st ≡ₚ [(0, Some e1); (1, Some e2)] ->
           ~ benign (Some e1) -> ~ benign (Some e2) ->
           r = Some e1 \/ r = Some e2))) /\
  ((forall s ctx, s ∈ services a -> returns_unaided (Run s ctx)) ->
   exists sched r, Run_under o a w sched = Some r).
Proof.
  split; [|apply Run_can_return].
  intros sched st Hx. split.
  - intros Hr Hall. eexists. split.
    + simpl. rewrite Hr, Hall. reflexivity.
    + simpl. by rewrite (c_err (Run_exec_consistent _ _ _ _ _ Hx)).
  - intros r Hr.
    pose proof (Run_returned_first _ _ _ _ _ _ Hx Hr) as Hfirst.
    split; [done|]. split; [by eapply Run_returned_all|]. split.
    { intros Hall. rewrite Hfirst. by apply first_error_all_nil. }
    split.
    + intros x ->. by apply first_error_returned.
    + intros e1 e2 Hp H1 H2. rewrite Hfirst. unfold contributions.
      symmetry in Hp. apply Permutation_length_2_inv in Hp as [->| ->];
        simpl;
        rewrite ?(contribution_other _ H1), ?(contribution_other _ H2); auto.
Qed.

Lemma Run_returns_first_error_witness :
  Run_exec os0 two_failing empty_world two_failing_sched
    = Some two_failing_end /\
  returned two_failing_end = Some (Some bang) /\
  returns two_failing_end = [(1, Some bang); (0, Some boom)] /\
  Some bang = first_error (contributions two_failing_end) /\
  (Some bang = Some boom \/ Some bang = Some bang).
Proof.
  split; [reflexivity|]. split; [reflexivity|]. split; [reflexivity|].
  destruct (proj1 (Run_returns_first_error os0 two_failing empty_world)
              two_failing_sched two_failing_end eq_refl) as [_ H].
  destruct (H (Some bang) eq_refl) as (H1 & _ & _ & _ & H2).
  split; [exact H1|]. apply (H2 boom bang).
  - apply Permutation_swap.
  - apply not_benign_test. reflexivity.
  - apply not_benign_test. reflexivity.
Defined.




End RunFacts.

(** ** Cancellation under [manager.Run], and the adapter *)

Module CancelFacts.
Import Go Errors Slog Ctx Supervisor Os ErrorFacts MachineFacts LazyService Demo RunFacts.

Lemma Run_exec_group_cancel o a w sched st :
  well_formed w ->
  Run_exec o a w sched = Some st ->
  group_cancel_explained (Run_start o a w).1.2 st.
Proof.
  intros [Hf Hn] Hx. unfold Run_exec in Hx.
  assert ((gid (Run_start o a w).1.2 ∉
             (notify (cancels (Run_start o a w).2)).*1) /\
          group_cancel_explained (Run_start o a w).1.2 (Run_start o a w).2)
    as H0.
  { split.
    - simpl. intros Hin. apply list_elem_of_fmap in Hin as ([id sg] & Heq & Hin).
      simpl in Heq. subst id. apply Hn in Hin. lia.
    - intros [s Hin]. simpl in Hin. apply Hf in Hin. lia. }
  revert H0 Hx. destruct (Run_start o a w) as [[a' e] st0]. simpl.
  intros H0 Hx.
  by apply (exec_invariant Service svc_name svc_run e _
              (move_group_cancel Service svc_name svc_run e) sched st0 st H0).
Qed.

(** C10, as amended: in every state of a run, while [Run] has not returned,
    the group's context is done only if some closure has contributed a non-nil
    error or the root context was cancelled from outside; a closure whose
    service returned nil or a benign error returns nil and leaves the
    cancellations, the group and every other closure as they were; and when
    [Wait] returns, after all closures, it cancels the group's context in any
    case. *)
Theorem benign_return_cancels_nothing o a w sched st :
  well_formed w ->
  Run_exec o a w sched = Some st ->
  let e := (Run_start o a w).1.2 in
  (returned st = None -> Err (cancels st) (grpCtx e) <> None ->
   (exists x, Some x ∈ contributions st) \/
   Err (cancels st) (root e) <> None) /\
  (forall i ctx l p raw,
     tasks st !! i = Some (Running ctx l p) -> observe p = RetF raw ->
     raw = None \/ benign raw ->
     exists st',
       step svc_name svc_run e (Sched i) st = Some st' /\
       tasks st' !! i = Some (Finished None) /\
       cancels st' = cancels st /\
       group st' = group st /\
       (forall j, j <> i -> tasks st' !! j = tasks st !! j) /\
       (forall c, Err (cancels st') c = Err (cancels st) c)) /\
  (forall st',
     step svc_name svc_run e WaitReturns st = Some st' ->
     Err (cancels st') (grpCtx e) <> None).
Proof.
  intros Hw Hx e.
  pose proof (Run_exec_consistent _ _ _ _ _ Hx) as Hc. fold e in Hc.
  pose proof (Run_exec_group_cancel _ _ _ _ _ Hw Hx) as Hg. fold e in Hg.
  split; [|split].
  - intros Hr Hd. apply Err_fired in Hd as (id & s & Hin & Hid).
    assert (cancel_ids (grpCtx e) = gid e :: cancel_ids (root e)) as Hids
      by reflexivity.
    rewrite Hids in Hid. apply elem_of_cons in Hid as [->|Hid].
    + left. destruct Hg as [[x Hxe]|[r Hr']]; [by eauto| |congruence].
      exists x. apply first_error_elem. by rewrite <- (c_err Hc).
    + right. apply Err_fired. by eauto.
  - intros i ctx l p raw Ht Ho Hraw.
    assert (contribution raw = None) as Hn.
    { destruct Hraw as [->|Hb]; [done|by apply contribution_benign]. }
    assert (exists s, svcs e !! i = Some s) as [s Hs].
    { apply lookup_lt_is_Some_2. rewrite <- (c_length Hc).
      by eapply lookup_lt_Some. }
    exists (finish_task svc_name e i s l raw st).
    destruct (finish_nil_frame Service svc_name e i s l raw st Hn)
      as (Hcs & Hgr & Hts).
    split; [by eapply step_return|]. split.
    { rewrite finish_task_tasks, Hn. apply list_lookup_insert_eq.
      by eapply lookup_lt_Some. }
    repeat split; try done. intros c. by rewrite Hcs.
  - intros st' Hs. simpl in Hs. destruct (returned st); [done|].
    destruct (forallb is_finished (tasks st)); [|done].
    injection Hs as <-. apply Err_fired. exists (gid e), SCanceled.
    split; [|apply list_elem_of_here]. simpl.
    apply elem_of_app. right. apply list_elem_of_here.
Qed.

Lemma benign_return_cancels_nothing_witness :
  well_formed world1 /\
  Run_exec os0 same_name world1 same_name_early = Some same_name_running /\
  exists st',
    step svc_name svc_run (Run_start os0 same_name world1).1.2 (Sched 0)
      same_name_running = Some st' /\
    tasks st' !! 0 = Some (Finished None) /\
    cancels st' = cancels same_name_running.
Proof.
  assert (well_formed world1) as Hw.
  { split; intros ? ? H; by apply elem_of_nil in H. }
  split; [exact Hw|]. split; [reflexivity|].
  destruct (benign_return_cancels_nothing os0 same_name world1
              same_name_early same_name_running Hw eq_refl) as (_ & H & _).
  destruct (H 0 _ _ _ None eq_refl eq_refl (or_introl eq_refl))
    as (st' & Hs & Ht & Hc & _).
  exists st'. by repeat split.
Defined.

(** C10, as stated, fails at the end of a run: one service returns nil, [Run]
    returns, and the group's context is cancelled although no closure
    contributed an error and nothing outside cancelled the root. *)
Lemma group_cancelled_without_error_counterexample :
  Run_exec os0 one_quiet empty_world one_quiet_sched = Some one_quiet_end /\
  contributions one_quiet_end = [None] /\
  ~ (Err (cancels one_quiet_end)
       (grpCtx (Run_start os0 one_quiet empty_world).1.2) <> None ->
     (exists x, Some x ∈ contributions one_quiet_end) \/
     Err (cancels one_quiet_end)
       (root (Run_start os0 one_quiet empty_world).1.2) <> None).
Proof.
  split; [reflexivity|]. split; [reflexivity|].
  intros H. destruct H as [[x Hx]|Hr]; [done| |by apply Hr].
  apply list_elem_of_singleton in Hx. discriminate.
Qed.

(** C8: the service made by [serviceFunc n f] is named [n], and its [Run] on
    a context is [f] on that context and the logger the context binds, or
    [slog.Default()] if it binds none: nothing is done before, after or
    besides. *)
Theorem serviceFunc_pairs n f :
  Name (Desc (serviceFunc n f)) = n /\
  (forall ctx,
     Run (serviceFunc n f) ctx =
     f ctx (default Slog.Default
              (of_any (Lazycontext.Get TLogger ctx)))) /\
  (forall parent l,
     Run (serviceFunc n f)
       (valueCtx parent (Lazycontext.token TLogger) (to_any (Some l))) =
     f (valueCtx parent (Lazycontext.token TLogger) (to_any (Some l))) l) /\
  Run (serviceFunc n f) backgroundCtx = f backgroundCtx Slog.Default.
Proof. repeat split. Qed.

End CancelFacts.

Module AppRunFacts.
Import Go Errors Slog Ctx Supervisor Os ErrorFacts MachineFacts LazyApp Demo.

Lemma Run_start_nil_ctx o a w :
  ctx a = None ->
  exists a' e st0 l,
    Run_start o a w = Ok (a', e, st0) /\
    cancel a' = Some (next_id w) /\
    root e = valueCtx (signalCtx backgroundCtx (next_id w) [Interrupt])
               (Some (TRtype, PType TLogger)) (to_any (Some l)) /\
    ctx a' = Some (root e) /\
    grpCtx e = cancelCtx (root e) (S (next_id w)) /\
    deferred_cancel e = Some (next_id w) /\
    svcs e = services a /\
    st0 = spawn_all e {| fired := fired w;
                         notify := notify w ++ [(next_id w, [Interrupt])];
                         next_id := S (S (next_id w)) |}
            [RegionStart "lazyapp.Run"; Record_ LevelInfo l "starting app"].
Proof.
  destruct a as [n v c lg sv cn]. simpl. intros ->.
  unfold Run_start. simpl. eexists _, _, _, _. repeat split.
Qed.

Lemma Run_start_some_ctx o a w c :
  ctx a = Some c ->
  exists a' e st0 l,
    Run_start o a w = Ok (a', e, st0) /\
    cancel a' = cancel a /\
    root e = valueCtx c (Some (TRtype, PType TLogger)) (to_any (Some l)) /\
    deferred_cancel e = None /\
    st0 = spawn_all e {| fired := fired w; notify := notify w;
                         next_id := S (next_id w) |}
            [RegionStart "lazyapp.Run"; Record_ LevelInfo l "starting app"].
Proof.
  destruct a as [n v c0 lg sv dn cn]. simpl. intros ->.
  unfold Run_start. simpl. unfold AppGet. simpl.
  destruct (type_assert TLogger _) as [t ok]. simpl.
  eexists _, _, _, _. repeat split.
Qed.

(** No move of a run registers a context for a signal. *)
Lemma exec_keeps_notify {Svc} (svc_name : Svc -> string) svc_run e sched
    st st' :
  exec svc_name svc_run e sched st = Some st' ->
  notify (cancels st') = notify (cancels st).
Proof.
  intros Hx.
  apply (exec_invariant Svc svc_name svc_run e
           (fun s => notify (cancels s) = notify (cancels st))) with sched st;
    [|done|done].
  intros s1 s2 H1 Hm. rewrite <- H1. by eapply move_notify.
Qed.

(** A signal leaves alone a context none of whose cancellation states is
    registered for it. *)
Lemma deliver_leaves sig w c :
  (forall id sigs, (id, sigs) ∈ notify w -> sig ∈ sigs -> id ∉ cancel_ids c) ->
  is_done w c = false -> is_done (deliver sig w) c = false.
Proof.
  intros Hn Hd. destruct (is_done (deliver sig w) c) eqn:H; [|done].
  apply Err_done, Err_fired in H as (id & s & Hin & Hid).
  apply deliver_fired in Hin as [Hin|(_ & sigs & Hin & Hs)].
  - assert (is_done w c = true) as Ht; [|congruence].
    apply Err_done, Err_fired. by exists id, s.
  - exfalso. by eapply Hn.
Qed.

(** C6: what binds the root to the interrupt is that the supervisor has no
    context when [Run] is called, and only [lazyApp.Run] does it. On such a
    supervisor [lazyApp.Run] makes the root context with
    [signal.NotifyContext] for the interrupt signal and derives the group's
    context from it; the root is live when [Run] starts, and in every state
    of the run the delivery of an interrupt leaves the root, the group's
    context and the context of every running service done. A supervisor made
    by [New] to which only services were added has no context; one to which
    a value was added with [AddValue] or [AppSet] has one. On a supervisor
    that has a context [lazyApp.Run] derives the root from that context,
    registers nothing for a signal and defers no cancel call, and an
    interrupt leaves a live root live unless that context was itself
    registered for the interrupt before. [manager.Run] registers nothing for
    a signal and defers no cancel call on any manager. *)
Theorem Run_binds_root_to_interrupt o w :
  (forall a, ctx a = None ->
     exists a' e st0 key val,
       Run_start o a w = Ok (a', e, st0) /\
       root e = valueCtx (signalCtx backgroundCtx (next_id w) [Interrupt])
                  key val /\
       ctx a' = Some (root e) /\
       cancel a' = Some (next_id w) /\
       grpCtx e = cancelCtx (root e) (S (next_id w)) /\
       (well_formed w -> Err (cancels st0) (root e) = None) /\
       forall sched st,
         exec svc_name Run e sched st0 = Some st ->
         exists st',
           step svc_name Run e (Deliver Interrupt) st = Some st' /\
           is_done (cancels st') (root e) = true /\
           is_done (cancels st') (grpCtx e) = true /\
           forall i c l p,
             tasks st' !! i = Some (Running c l p) ->
             is_done (cancels st') c = true) /\
  (forall n v ss, ctx (fold_left AddService ss (New o n v)) = None) /\
  (forall a key val a1, AddValue a key val = Ok a1 -> ctx a1 <> None) /\
  (forall T a val a1, AppSet T a val = Ok a1 -> ctx a1 <> None) /\
  (forall a c, ctx a = Some c ->
     exists a' e st0 key val,
       Run_start o a w = Ok (a', e, st0) /\
       root e = valueCtx c key val /\
       cancel a' = cancel a /\
       deferred_cancel e = None /\
       forall sched st,
         exec svc_name Run e sched st0 = Some st ->
         notify (cancels st) = notify w /\
         ((forall id sigs, (id, sigs) ∈ notify w -> Interrupt ∈ sigs ->
                           id ∉ cancel_ids c) ->
          is_done (cancels st) (root e) = false ->
          exists st',
            step svc_name Run e (Deliver Interrupt) st = Some st' /\
            is_done (cancels st') (root e) = false)) /\
  (forall m sched st,
     LazyService.Run_exec o m w sched = Some st ->
     deferred_cancel (LazyService.Run_start o m w).1.2 = None /\
     notify (cancels st) = notify w).
Proof.
  assert (forall a key val a1, AddValue a key val = Ok a1 -> ctx a1 <> None)
    as HAdd.
  { intros a key val a1. unfold AddValue.
    destruct (WithValue _ key val) as [c|m]; simpl; [|done].
    by intros [= <-]. }
  split; [|split; [|split; [exact HAdd|split; [|split]]]].
  - intros a Hnil.
    destruct (Run_start_nil_ctx o a w Hnil)
      as (a' & e & st0 & l & Hrun & Hcancel & Hroot & Hctx & Hgrp & _ & _
          & Hst0).
    exists a', e, st0, (Some (TRtype, PType TLogger)), (to_any (Some l)).
    repeat (split; [done|]). split.
    + intros [Hf _]. destruct (Err (cancels st0) (root e)) eqn:HE; [|done].
      exfalso. assert (Err (cancels st0) (root e) <> None) as HE' by congruence.
      apply Err_fired in HE' as (id & s & Hin & Hid).
      rewrite Hst0 in Hin. simpl in Hin. apply Hf in Hin.
      rewrite Hroot in Hid. simpl in Hid.
      apply list_elem_of_singleton in Hid. lia.
    + intros sched st Hx.
      assert (notify (cancels st) = notify (cancels st0) /\ under_group e st)
        as [Hn Hu].
      { apply (exec_invariant Service svc_name Run e
                 (fun st => notify (cancels st) = notify (cancels st0) /\
                            under_group e st)) with sched st0; [| |done].
        - intros s1 s2 [H1 H2] Hm. split.
          + rewrite <- H1. by eapply move_notify.
          + by eapply move_under_group.
        - split; [done|]. rewrite Hst0. intros i c l' p Ht. simpl in Ht.
          apply list_lookup_fmap_Some in Ht as (? & ? & ?). done. }
      eexists. split; [reflexivity|]. simpl.
      assert ((next_id w, SCanceled) ∈ fired (deliver Interrupt (cancels st)))
        as Hfired.
      { apply deliver_fired. right. split; [done|]. exists [Interrupt].
        split; [|apply list_elem_of_here]. rewrite Hn, Hst0. simpl.
        apply elem_of_app. right. apply list_elem_of_here. }
      assert (is_done (deliver Interrupt (cancels st)) (root e) = true) as Hd.
      { apply Err_done, Err_fired. exists (next_id w), SCanceled.
        split; [done|]. rewrite Hroot. simpl. apply list_elem_of_here. }
      split; [done|]. split.
      * apply Err_done. apply (Err_parent _ _ (root e)); [|by apply Err_done].
        intros id Hid. rewrite Hgrp. simpl. by apply list_elem_of_further.
      * intros i c l' p Ht. destruct (Hu i c l' p Ht) as (k & v & ->).
        apply Err_done. apply (Err_parent _ _ (root e)); [|by apply Err_done].
        intros id Hid. rewrite Hgrp. simpl. by apply list_elem_of_further.
  - intros n v ss.
    assert (forall a, ctx (fold_left AddService ss a) = ctx a) as H.
    { induction ss as [|s ss IH]; intros a; simpl; [done|]. by rewrite IH. }
    by rewrite H.
  - intros T a val a1. apply HAdd.
  - intros a c Hc.
    destruct (Run_start_some_ctx o a w c Hc)
      as (a' & e & st0 & l & Hrun & Hcancel & Hroot & Hdef & Hst0).
    exists a', e, st0, (Some (TRtype, PType TLogger)), (to_any (Some l)).
    repeat (split; [done|]). intros sched st Hx.
    pose proof (exec_keeps_notify _ _ _ _ _ _ Hx) as Hn.
    rewrite Hst0 in Hn. simpl in Hn. split; [done|].
    intros Hreg Hlive. eexists. split; [reflexivity|]. simpl.
    apply deliver_leaves; [|done].
    intros id sigs Hin Hs. rewrite Hn in Hin. rewrite Hroot. simpl.
    by eapply Hreg.
  - intros m sched st Hx. split; [done|].
    unfold LazyService.Run_exec in Hx. simpl in Hx.
    by rewrite (exec_keeps_notify _ _ _ _ _ _ Hx).
Qed.

Lemma Run_binds_root_to_interrupt_witness :
  ctx app0 = None /\
  exists a' e st0,
    Run_start os0 app0 empty_world = Ok (a', e, st0) /\
    exists st',
      step svc_name Run e (Deliver Interrupt) st0 = Some st' /\
      is_done (cancels st') (root e) = true /\
      is_done (cancels st') (grpCtx e) = true.
Proof.
  split; [reflexivity|].
  destruct (proj1 (Run_binds_root_to_interrupt os0 empty_world) app0 eq_refl)
    as (a' & e & st0 & key & val & Hrun & _ & _ & _ & _ & _ & H).
  exists a', e, st0. split; [exact Hrun|].
  destruct (H [] st0 eq_refl) as (st' & Hs & Hr & Hg & _).
  exists st'. by repeat split.
Defined.

(** C6, as stated, fails on a supervisor that was made without a context and
    was given a value before [Run]: [AddValue] has set its context, so [Run]
    makes no signal context, and the delivery of an interrupt leaves the root
    and the group's context live. *)
Lemma Run_binds_root_to_interrupt_counterexample :
  ctx app0 = None /\
  exists a a' e st0 st',
    AddValue app0 (Some (TString, PString "key"))
      (Some (TString, PString "value")) = Ok a /\
    Run_start os0 a empty_world = Ok (a', e, st0) /\
    notify (cancels st0) = [] /\
    step svc_name Run e (Deliver Interrupt) st0 = Some st' /\
    is_done (cancels st') (root e) = false /\
    is_done (cancels st') (grpCtx e) = false.
Proof.
  split; [reflexivity|]. eexists _, _, _, _, _.
  split; [reflexivity|]. split; [reflexivity|]. split; [reflexivity|].
  split; [reflexivity|]. split; reflexivity.
Qed.

End AppRunFacts.

(** ** Contexts once cancelled *)

Module CtxMore.
Import Go Errors Ctx MachineFacts.

Lemma find_app_Some {A} (f : A -> bool) l1 l2 x :
  List.find f l1 = Some x -> List.find f (l1 ++ l2) = Some x.
Proof.
  induction l1 as [|y l1 IH]; simpl; [done|]. by destruct (f y).
Qed.

Lemma find_app_None {A} (f : A -> bool) l1 l2 :
  (forall y, y ∈ l2 -> f y = false) ->
  List.find f (l1 ++ l2) = List.find f l1.
Proof.
  intros H. induction l1 as [|y l1 IH]; simpl.
  - destruct (List.find f l2) as [x|] eqn:Hf; [|done].
    apply find_some in Hf as [Hin Hx]. apply list_elem_of_In in Hin.
    rewrite (H x Hin) in Hx. discriminate.
  - by destruct (f y).
Qed.

(** Once a context reports an error it reports that error for good. *)
Lemma Err_stable w w' more c x :
  fired w' = fired w ++ more -> Err w c = Some x -> Err w' c = Some x.
Proof.
  unfold Err. intros ->.
  destruct (List.find _ (fired w)) as [y|] eqn:Hf; [|done].
  by rewrite (find_app_Some _ _ more _ Hf).
Qed.

(** Cancelling contexts that [c] does not depend on leaves it alone. *)
Lemma Err_unrelated w w' more c :
  fired w' = fired w ++ more ->
  (forall id s, (id, s) ∈ more -> id ∉ cancel_ids c) ->
  Err w' c = Err w c.
Proof.
  unfold Err. intros -> H. rewrite find_app_None; [done|].
  intros [id s] Hin. simpl. apply bool_decide_eq_false. by eapply H.
Qed.

Lemma Err_sentinel w c x : Err w c = Some x -> x = Canceled \/ x = DeadlineExceeded.
Proof.
  unfold Err. destruct (List.find _ _) as [[id s]|]; [|done].
  intros [= <-]. destruct s; auto.
Qed.

End CtxMore.

(** ** What a run never undoes *)

Module MachineMore.
Import Go Errors Slog Ctx Supervisor Os ErrorFacts MachineFacts ProgressFacts CtxMore.

Section More.

Variable Svc : Type.
Variable svc_name : Svc -> string.
Variable svc_run : Svc -> Context -> Logger -> behaviour.
Variable e : env Svc.

Local Abbreviation step := (step svc_name svc_run e).
Local Abbreviation exec := (exec svc_name svc_run e).
Local Abbreviation move := (move svc_name svc_run e).

Lemma move_fired st st' :
  move st st' -> exists more, fired (cancels st') = fired (cancels st) ++ more.
Proof.
  intros Hm.
  destruct Hm as [i s l ctx Ht Hs _ _|i ctx l p p' evs Ht|i s ctx l p raw Ht Hs Ho
                 |Hd|id s Hid|sig|Hr Hall];
    try (exists []; simpl; by rewrite app_nil_r).
  - rewrite (finish_task_cancels Svc svc_name e).
    destruct (contribution raw); [|exists []; by rewrite app_nil_r].
    destruct (errOnce _); [exists []; by rewrite app_nil_r|].
    by eexists.
  - by eexists.
  - simpl. destruct (deliver_fold sig (notify (cancels st)) (cancels st))
      as (H & _ & _). eexists. exact H.
  - simpl. destruct (deferred_cancel e); simpl.
    + rewrite <- app_assoc. by eexists.
    + by eexists.
Qed.

Lemma exec_fired sched st st' :
  exec sched st = Some st' ->
  exists more, fired (cancels st') = fired (cancels st) ++ more.
Proof.
  revert st. induction sched as [|lb sched IH]; simpl; intros st Hx.
  - injection Hx as <-. exists []. by rewrite app_nil_r.
  - destruct (step lb st) as [st1|] eqn:Hs; [|done].
    apply step_move, move_fired in Hs as [m1 H1].
    destruct (IH _ Hx) as [m2 H2]. exists (m1 ++ m2).
    by rewrite H2, H1, app_assoc.
Qed.

(** In the course of a run a context that is done stays done, with the error
    it reported first. *)
Lemma exec_Err_stable sched st st' c x :
  exec sched st = Some st' -> Err (cancels st) c = Some x ->
  Err (cancels st') c = Some x.
Proof.
  intros Hx HE. destruct (exec_fired _ _ _ Hx) as [more Hm].
  by eapply Err_stable.
Qed.

Lemma move_stable st st' :
  consistent e st -> move st st' ->
  (forall x, err (group st) = Some x -> err (group st') = Some x) /\
  (forall i r, tasks st !! i = Some (Finished r) ->
               tasks st' !! i = Some (Finished r)) /\
  (forall r, returned st = Some r -> returned st' = Some r).
Proof.
  intros Hc Hm.
  destruct Hm as [i s l ctx Ht Hs _ _|i ctx l p p' evs Ht|i s ctx l p raw Ht Hs Ho
                 |Hd|id s Hid|sig|Hr Hall]; simpl; try done.
  - repeat split; try done. intros j r Hj.
    rewrite list_lookup_insert_ne; [done|]. intros ->. congruence.
  - repeat split; try done. intros j r Hj.
    rewrite list_lookup_insert_ne; [done|]. intros ->. congruence.
  - rewrite (finish_task_group Svc svc_name e),
      (finish_task_tasks Svc svc_name e), (finish_task_returned Svc svc_name e).
    repeat split; try done.
    + intros x Hx. destruct (contribution raw); [|done].
      rewrite (c_once Hc), Hx. by rewrite bool_decide_eq_true_2 by eauto.
    + intros j r Hj. rewrite list_lookup_insert_ne; [done|].
      intros ->. congruence.
  - repeat split; try done. intros r Hr'. congruence.
Qed.

Lemma exec_stable sched st st' :
  consistent e st -> exec sched st = Some st' ->
  (forall x, err (group st) = Some x -> err (group st') = Some x) /\
  (forall i r, tasks st !! i = Some (Finished r) ->
               tasks st' !! i = Some (Finished r)) /\
  (forall r, returned st = Some r -> returned st' = Some r).
Proof.
  revert st. induction sched as [|lb sched IH]; simpl; intros st Hc Hx.
  - by injection Hx as <-.
  - destruct (step lb st) as [st1|] eqn:Hs; [|done].
    apply step_move in Hs.
    destruct (move_stable _ _ Hc Hs) as (H1 & H2 & H3).
    destruct (IH _ (move_consistent Svc svc_name svc_run e _ _ Hc Hs) Hx)
      as (H1' & H2' & H3').
    repeat split; eauto.
Qed.

Lemma move_watcher st st' :
  (watcher_fired st = true -> Err (cancels st) (root e) <> None) ->
  move st st' ->
  (watcher_fired st' = true -> Err (cancels st') (root e) <> None).
Proof.
  intros Hw Hm Hf. destruct (move_fired _ _ Hm) as [more Hmore].
  assert (watcher_fired st = true \/ is_done (cancels st) (root e) = true)
    as [H|H].
  { destruct Hm as [i s l ctx Ht Hs _ _|i ctx l p p' evs Ht
                   |i s ctx l p raw Ht Hs Ho|Hd|id s Hid|sig|Hr Hall];
      simpl in Hf; auto.
    left. unfold Supervisor.finish_task in Hf.
    by destruct (classify l raw). }
  - apply Hw in H. destruct (Err (cancels st) (root e)) as [x|] eqn:HE; [|done].
    by rewrite (Err_stable _ _ _ _ _ Hmore HE).
  - apply Err_done in H.
    destruct (Err (cancels st) (root e)) as [x|] eqn:HE; [|done].
    by rewrite (Err_stable _ _ _ _ _ Hmore HE).
Qed.

End More.
End MachineMore.

(** ** Runs that can be stopped *)

Module ShutdownMore.
Import Go Errors Slog Ctx Supervisor Os ErrorFacts MachineFacts ProgressFacts.
Import CtxMore MachineMore.

Section Shutdown.

Variable Svc : Type.
Variable svc_name : Svc -> string.
Variable svc_run : Svc -> Context -> Logger -> behaviour.
Variable e : env Svc.

Local Abbreviation step := (step svc_name svc_run e).
Local Abbreviation exec := (exec svc_name svc_run e).
Local Abbreviation finish_task := (finish_task svc_name e).

Lemma after_move_once_done c w p p' :
  returns_once_done c p -> after_move w p = Some p' ->
  returns_once_done c p'.
Proof.
  intros H. unfold after_move.
  destruct H as [p r Ho|p q Ho H|p c' k Ho H|p ev k Ho H|p k Ho H];
    rewrite Ho; simpl; try done; intros [= <-]; done.
Qed.

(** One move of a running service is its return or leaves what
    [after_move] says. *)
Lemma run_task_cases i s ctx l p st st' :
  run_task svc_name e i s ctx l p st = Some st' ->
  (exists raw, observe p = RetF raw /\ st' = finish_task i s l raw st) \/
  (exists p' evs, after_move (cancels st) p = Some p' /\
                  st' = set_task i (Running ctx l p') evs st).
Proof.
  unfold run_task, after_move.
  destruct (observe p) as [r|p'|X ev k] eqn:Ho.
  - intros [= <-]. left. by exists r.
  - intros [= <-]. right. by exists p', [].
  - destruct ev as [c|c|ev].
    + destruct (is_done (cancels st) c); [|done]. intros [= <-].
      right. by exists (k tt), [].
    + intros [= <-]. right. by eexists _, [].
    + intros [= <-]. right. by exists (k tt), [ev].
Qed.

(** A recorded error goes with the cancellation of the group's context. *)
Lemma move_err_fired st st' :
  consistent e st ->
  (is_Some (err (group st)) -> exists s, (gid e, s) ∈ fired (cancels st)) ->
  Supervisor.move svc_name svc_run e st st' ->
  is_Some (err (group st')) -> exists s, (gid e, s) ∈ fired (cancels st').
Proof.
  intros Hc H Hm Hsome.
  destruct (move_fired Svc svc_name svc_run e _ _ Hm) as [more Hmore].
  destruct (err (group st)) as [x|] eqn:Hx.
  { destruct H as [s Hs]; [by eexists|]. exists s. rewrite Hmore.
    apply elem_of_app. by left. }
  destruct Hm as [i s l ctx Ht Hs _ _|i ctx l p p' evs Ht
                 |i s ctx l p raw Ht Hs Ho|Hd|id s Hid|sig|Hr Hall];
    simpl in Hsome; try (rewrite Hx in Hsome; by destruct Hsome).
  rewrite (finish_task_group Svc svc_name e) in Hsome.
  rewrite (finish_task_cancels Svc svc_name e).
  destruct (contribution raw) as [y|];
    [|rewrite Hx in Hsome; by destruct Hsome].
  rewrite (c_once Hc), Hx in *.
  rewrite bool_decide_eq_false_2 by (by intros [? ?]).
  exists SCanceled. simpl. apply elem_of_app. right. apply list_elem_of_here.
Qed.

Hypothesis services_cooperate :
  forall s ctx l, s ∈ svcs e -> returns_once_done ctx (svc_run s ctx l).

Lemma step_cooperative lb st st' :
  cooperative st -> step lb st = Some st' -> cooperative st'.
Proof.
  intros Hc Hs. destruct lb as [i| |id s|sig|]; simpl in Hs.
  - destruct (tasks st !! i) as [[|ctx l p|r]|] eqn:Ht; try done;
      destruct (svcs e !! i) as [s|] eqn:Hsv; try done.
    + unfold start_task in Hs. simpl in Hs. injection Hs as <-.
      intros j c l' q. simpl.
      pose proof (lookup_lt_Some _ _ _ Ht) as Hlt.
      destruct (decide (j = i)) as [->|Hne].
      * rewrite list_lookup_insert_eq by done. intros [= <- <- <-].
        apply services_cooperate. by eapply list_elem_of_lookup_2.
      * rewrite list_lookup_insert_ne by done. apply Hc.
    + pose proof (lookup_lt_Some _ _ _ Ht) as Hlt.
      apply run_task_cases in Hs
        as [(raw & Ho & ->)|(p' & evs & Ha & ->)]; intros j c l' q.
      * rewrite (finish_task_tasks Svc svc_name e).
        destruct (decide (j = i)) as [->|Hne].
        -- by rewrite list_lookup_insert_eq.
        -- rewrite list_lookup_insert_ne by done. apply Hc.
      * simpl. destruct (decide (j = i)) as [->|Hne].
        -- rewrite list_lookup_insert_eq by done. intros [= <- <- <-].
           eapply after_move_once_done; [|exact Ha]. by eapply Hc.
        -- rewrite list_lookup_insert_ne by done. apply Hc.
  - destruct (_ && _); [|done]. injection Hs as <-. exact Hc.
  - destruct (bool_decide _); [done|]. injection Hs as <-. exact Hc.
  - injection Hs as <-. exact Hc.
  - destruct (returned st); [done|].
    destruct (forallb _ _); [|done]. injection Hs as <-. exact Hc.
Qed.

Lemma exec_cooperative sched st st' :
  cooperative st -> exec sched st = Some st' -> cooperative st'.
Proof.
  revert st. induction sched as [|lb sched IH]; simpl; intros st Hc Hx.
  - by injection Hx as <-.
  - destruct (step lb st) as [st1|] eqn:Hs; [|done].
    eapply IH; [|exact Hx]. by eapply step_cooperative.
Qed.

(** A running service that waits for its own context only is brought to its
    return by scheduling it, once that context is done. *)
Lemma drive_once_done ctx p :
  returns_once_done ctx p ->
  forall st i s l,
    tasks st !! i = Some (Running ctx l p) -> svcs e !! i = Some s ->
    is_done (cancels st) ctx = true ->
    exists n st',
      exec (replicate n (Sched i)) st = Some st' /\
      (exists r, tasks st' !! i = Some (Finished r)) /\
      (forall j, j <> i -> tasks st' !! j = tasks st !! j) /\
      returned st' = returned st /\
      length (tasks st') = length (tasks st).
Proof.
  induction 1 as [p r Ho|p p' Ho _ IH|p c k Ho _ IH|p ev k Ho _ IH
                 |p k Ho _ IH];
    intros st i s l Ht Hs Hd;
    pose proof (lookup_lt_Some _ _ _ Ht) as Hlt.
  - exists 1, (finish_task i s l r st). split.
    { simpl. rewrite Ht, Hs. unfold run_task. by rewrite Ho. }
    rewrite (finish_task_tasks Svc svc_name e),
      (finish_task_returned Svc svc_name e), length_insert.
    split; [exists (contribution r); by apply list_lookup_insert_eq|].
    split; [|done]. intros j Hj. by apply list_lookup_insert_ne.
  - destruct (set_task_lookup i (Running ctx l p') [] st Hlt)
      as (Hi & Ho' & Hr & Hl).
    destruct (IH _ i s l Hi Hs Hd)
      as (n & st' & Hx & Hf & Hoth & Hret & Hlen).
    exists (S n), st'. split; [|split; [done|split; [|split; congruence]]].
    + simpl. rewrite Ht, Hs. unfold run_task. by rewrite Ho.
    + intros j Hj. rewrite (Hoth j Hj). by apply Ho'.
  - destruct (set_task_lookup i
                (Running ctx l (k (Err (cancels st) c))) [] st Hlt)
      as (Hi & Ho' & Hr & Hl).
    destruct (IH _ _ i s l Hi Hs Hd)
      as (n & st' & Hx & Hf & Hoth & Hret & Hlen).
    exists (S n), st'. split; [|split; [done|split; [|split; congruence]]].
    + simpl. rewrite Ht, Hs. unfold run_task. by rewrite Ho.
    + intros j Hj. rewrite (Hoth j Hj). by apply Ho'.
  - destruct (set_task_lookup i (Running ctx l (k tt)) [ev] st Hlt)
      as (Hi & Ho' & Hr & Hl).
    destruct (IH _ i s l Hi Hs Hd)
      as (n & st' & Hx & Hf & Hoth & Hret & Hlen).
    exists (S n), st'. split; [|split; [done|split; [|split; congruence]]].
    + simpl. rewrite Ht, Hs. unfold run_task. by rewrite Ho.
    + intros j Hj. rewrite (Hoth j Hj). by apply Ho'.
  - destruct (set_task_lookup i (Running ctx l (k tt)) [] st Hlt)
      as (Hi & Ho' & Hr & Hl).
    destruct (IH _ i s l Hi Hs Hd)
      as (n & st' & Hx & Hf & Hoth & Hret & Hlen).
    exists (S n), st'. split; [|split; [done|split; [|split; congruence]]].
    + simpl. rewrite Ht, Hs. unfold run_task. by rewrite Ho, Hd.
    + intros j Hj. rewrite (Hoth j Hj). by apply Ho'.
Qed.

Lemma replicate_sched n i :
  Forall (fun lb => lb = WaitReturns \/ exists j, lb = Sched j)
    (replicate n (Sched i)).
Proof. apply Forall_replicate. right. by exists i. Qed.

(** With the group's context done, scheduling the services one after the
    other brings each to its return. *)
Lemma drive_all_done st0 :
  length (tasks st0) = length (svcs e) ->
  cooperative st0 -> under_group e st0 ->
  is_done (cancels st0) (grpCtx e) = true ->
  returned st0 = None ->
  forall k, k <= length (svcs e) ->
    exists sched st,
      Forall (fun lb => lb = WaitReturns \/ exists j, lb = Sched j) sched /\
      exec sched st0 = Some st /\
      (forall i, i < k -> exists r, tasks st !! i = Some (Finished r)) /\
      (forall i, k <= i -> tasks st !! i = tasks st0 !! i) /\
      returned st = None /\
      length (tasks st) = length (svcs e).
Proof.
  intros Hlen Hco Hu Hd Hret k. induction k as [|k IH]; intros Hk.
  - exists [], st0. repeat split; try done. intros i Hi. lia.
  - destruct IH as (sched & st & Hsch & Hx & Hfin & Hrest & Hr & Hl); [lia|].
    destruct (lookup_lt_is_Some_2 (svcs e) k) as [s Hs]; [lia|].
    assert (k < length (tasks st)) as Hlt by lia.
    assert (is_done (cancels st) (grpCtx e) = true) as Hd'.
    { apply Err_done. apply Err_done in Hd.
      destruct (Err (cancels st0) (grpCtx e)) as [x|] eqn:HE; [|done].
      by rewrite (exec_Err_stable Svc svc_name svc_run e _ _ _ _ _ Hx HE). }
    assert (forall st1 key val,
              (exists more, fired (cancels st1) = fired (cancels st) ++ more) ->
              is_done (cancels st1) (valueCtx (grpCtx e) key val) = true)
      as Hdone.
    { intros st1 key val [more Hm]. apply Err_done. apply Err_done in Hd'.
      destruct (Err (cancels st) (grpCtx e)) as [x|] eqn:HE; [|done].
      apply (Err_parent _ _ (grpCtx e)); [done|].
      by rewrite (Err_stable _ _ _ _ _ Hm HE). }
    destruct (lookup_lt_is_Some_2 (tasks st) k Hlt) as [t Ht].
    destruct t as [|ctx l p|r].
    + pose (l := With (app_logger e) "service" (svc_name s)).
      pose (ctx := valueCtx (grpCtx e) (Some (TRtype, PType TLogger))
                     (to_any (Some l))).
      pose (st1 := set_task k (Running ctx l (svc_run s ctx l))
                     [RegionStart ("service:" +:+ svc_name s);
                      Record_ LevelInfo l "starting service"] st).
      assert (step (Sched k) st = Some st1) as Hstart.
      { simpl. by rewrite Ht, Hs. }
      destruct (set_task_lookup k (Running ctx l (svc_run s ctx l))
                  [RegionStart ("service:" +:+ svc_name s);
                   Record_ LevelInfo l "starting service"] st Hlt)
        as (Hi & Ho & Hr1 & Hl1). fold st1 in Hi, Ho, Hr1, Hl1.
      destruct (drive_once_done _ _ (services_cooperate s ctx l
                                       (list_elem_of_lookup_2 _ _ _ Hs))
                  st1 k s l Hi Hs)
        as (n & st2 & Hx2 & Hf2 & Hoth & Hret2 & Hlen2).
      { apply Hdone. exists []. by rewrite app_nil_r. }
      exists (sched ++ Sched k :: replicate n (Sched k)), st2.
      split; [|split; [|split; [|split; [|split; congruence]]]].
      * apply Forall_app. split; [done|]. apply Forall_cons.
        split; [right; by exists k|apply replicate_sched].
      * eapply exec_app; [done|].
        by rewrite (exec_cons Svc svc_name svc_run e _ _ _ _ Hstart).
      * intros i Hi'. destruct (decide (i = k)) as [->|Hne]; [done|].
        rewrite (Hoth i Hne), (Ho i Hne). apply Hfin. lia.
      * intros i Hi'. rewrite (Hoth i) by lia. rewrite (Ho i) by lia.
        apply Hrest. lia.
    + assert (tasks st0 !! k = Some (Running ctx l p)) as Ht0.
      { rewrite <- Hrest by lia. exact Ht. }
      destruct (Hu _ _ _ _ Ht0) as (key & val & ->).
      destruct (drive_once_done _ _ (Hco _ _ _ _ Ht0) st k s l Ht Hs)
        as (n & st2 & Hx2 & Hf2 & Hoth & Hret2 & Hlen2).
      { apply Hdone. exists []. by rewrite app_nil_r. }
      exists (sched ++ replicate n (Sched k)), st2.
      split; [|split; [|split; [|split; [|split; congruence]]]].
      * apply Forall_app. split; [done|]. apply replicate_sched.
      * by eapply exec_app.
      * intros i Hi'. destruct (decide (i = k)) as [->|Hne]; [done|].
        rewrite (Hoth i Hne). apply Hfin. lia.
      * intros i Hi'. rewrite (Hoth i) by lia. apply Hrest. lia.
    + exists sched, st. repeat split; try done.
      * intros i Hi'. destruct (decide (i = k)) as [->|Hne]; [by exists r|].
        apply Hfin. lia.
      * intros i Hi'. apply Hrest. lia.
Qed.

(** So once the group's context is done, [Run] can return without any help
    from outside. *)
Lemma can_stop st :
  length (tasks st) = length (svcs e) ->
  cooperative st -> under_group e st ->
  is_done (cancels st) (grpCtx e) = true ->
  returned st = None ->
  exists sched st',
    Forall (fun lb => lb = WaitReturns \/ exists j, lb = Sched j) sched /\
    exec sched st = Some st' /\
    returned st' = Some (err (group st')).
Proof.
  intros Hlen Hco Hu Hd Hret.
  destruct (drive_all_done st Hlen Hco Hu Hd Hret (length (svcs e)))
    as (sched & st1 & Hsch & Hx & Hfin & _ & Hr & Hl); [done|].
  assert (forallb is_finished (tasks st1) = true) as Hall.
  { apply forallb_forall. intros t Ht. apply list_elem_of_In in Ht.
    apply list_elem_of_lookup in Ht as [i Hi].
    destruct (Hfin i) as [r Hr'].
    - rewrite <- Hl. by eapply lookup_lt_Some.
    - rewrite Hi in Hr'. by injection Hr' as ->. }
  exists (sched ++ [WaitReturns]), (wait_returns e st1).
  split; [|split; [|done]].
  - apply Forall_app. split; [done|]. apply Forall_cons. split; [by left|].
    apply Forall_nil_2.
  - eapply exec_app; [done|].
    apply (exec_cons Svc svc_name svc_run e) with (sched := []).
    simpl. by rewrite Hr, Hall.
Qed.

End Shutdown.
End ShutdownMore.

(** ** [AddValue], [AppSet], [AppGet] and the context methods of the supervisor *)

Module StoreMore.
Import Go Errors Slog Ctx Os LazyApp StoreFacts Demo.

Lemma AddValue_Ok a key v a' :
  AddValue a key v = Ok a' ->
  a' = set_ctx a (valueCtx (default backgroundCtx (ctx a)) key v) /\
  exists K p, key = Some (K, p) /\ comparable K = true.
Proof.
  unfold AddValue, WithValue. destruct key as [[K p]|]; [|by destruct (ctx a)].
  destruct (comparable K) eqn:HK; [|by destruct (ctx a)].
  destruct (ctx a); simpl; intros [= <-]; eauto.
Qed.

Lemma plain_comparable K : plain K = true -> comparable K = true.
Proof. induction K; simpl; try done. Qed.

(** X1: [AddValue] with a key of a plain type (a boolean, an integer, a
    string, a pointer, a type descriptor or a type defined over one of them)
    never panics, and the value it binds is what [Value] returns for that key
    on the supervisor; every other key of a plain type reads as it did on the
    context the supervisor had (the background context if it had none); and
    the services, the name and the version are untouched. *)
Theorem AddValue_then_Value a key v :
  plain_key key = true ->
  exists a',
    AddValue a key v = Ok a' /\
    lazyApp_Value a' key = Ok v /\
    (forall k, plain_key k = true -> k <> key ->
       lazyApp_Value a' k = Ok (Value (default backgroundCtx (ctx a)) k)) /\
    services a' = services a /\ name a' = name a /\ version a' = version a.
Proof.
  intros Hk. destruct key as [[K p]|]; [|done]. simpl in Hk.
  apply plain_comparable in Hk.
  exists (set_ctx a (valueCtx (default backgroundCtx (ctx a)) (Some (K, p)) v)).
  split.
  { unfold AddValue, WithValue. rewrite Hk. by destruct (ctx a). }
  unfold lazyApp_Value. simpl. split; [|split; [|done]].
  - by rewrite bool_decide_eq_true_2.
  - intros k _ Hne. by rewrite bool_decide_eq_false_2 by congruence.
Qed.

Lemma AddValue_then_Value_witness :
  plain_key (Some (TString, PString "key")) = true /\
  exists a',
    AddValue app0 (Some (TString, PString "key"))
      (Some (TString, PString "value")) = Ok a' /\
    lazyApp_Value a' (Some (TString, PString "key"))
      = Ok (Some (TString, PString "value")).
Proof.
  split; [reflexivity|].
  destruct (AddValue_then_Value app0 (Some (TString, PString "key"))
              (Some (TString, PString "value")) eq_refl)
    as (a' & Hadd & Hval & _).
  by exists a'.
Defined.

Lemma Err_background w : Err w backgroundCtx = None.
Proof.
  destruct (Err w backgroundCtx) as [x|] eqn:H; [|done].
  assert (Err w backgroundCtx <> None) as H' by congruence.
  apply MachineFacts.Err_fired in H' as (id & s & _ & Hid).
  by apply elem_of_nil in Hid.
Qed.

(** X3: on a supervisor made by [New], [Err], [Done] and [Deadline] panic,
    since the context field is nil; after any [AddValue] that succeeds none
    of the three panics, and they are those of the context the supervisor
    had before, nil, not done and none if it had no context. *)
Theorem context_methods_after_AddValue o n vs w a key v a' :
  (lazyApp_Err w (New o n vs) =
     Panic "invalid memory address or nil pointer dereference" /\
   lazyApp_Done w (New o n vs) =
     Panic "invalid memory address or nil pointer dereference" /\
   lazyApp_Deadline (New o n vs) =
     Panic "invalid memory address or nil pointer dereference") /\
  (AddValue a key v = Ok a' ->
   lazyApp_Err w a' = Ok (Err w (default backgroundCtx (ctx a))) /\
   lazyApp_Done w a' = Ok (is_done w (default backgroundCtx (ctx a))) /\
   lazyApp_Deadline a' = Ok (Deadline (default backgroundCtx (ctx a))) /\
   (ctx a = None ->
    lazyApp_Err w a' = Ok None /\ lazyApp_Done w a' = Ok false /\
    lazyApp_Deadline a' = Ok None)).
Proof.
  split; [done|]. intros H. apply AddValue_Ok in H as [-> _].
  split; [done|]. split; [done|]. split; [done|].
  intros Hn.
  assert (Err w (valueCtx backgroundCtx key v) = None) as HE
    by exact (Err_background w).
  unfold lazyApp_Err, lazyApp_Done, lazyApp_Deadline, is_done, set_ctx.
  cbn [ctx]. rewrite Hn. cbn [default]. by rewrite HE.
Qed.

Lemma context_methods_after_AddValue_witness :
  AddValue app0 (Some (TString, PString "key")) (Some (TString, PString "value"))
  = Ok (set_ctx app0 (valueCtx backgroundCtx (Some (TString, PString "key"))
                        (Some (TString, PString "value")))) /\
  lazyApp_Err empty_world
    (set_ctx app0 (valueCtx backgroundCtx (Some (TString, PString "key"))
                     (Some (TString, PString "value")))) = Ok None.
Proof.
  split; [reflexivity|].
  destruct (context_methods_after_AddValue os0 "test" "1.0.0" empty_world app0
              (Some (TString, PString "key")) (Some (TString, PString "value"))
              (set_ctx app0
                 (valueCtx backgroundCtx (Some (TString, PString "key"))
                    (Some (TString, PString "value"))))) as [_ H].
  destruct (H eq_refl) as (_ & _ & _ & H').
  exact (proj1 (H' eq_refl)).
Defined.

(** X4: [AppSet] for one concrete type leaves what [AppGet] returns for every
    other concrete type as it was on the context the supervisor had. *)
Theorem AppSet_leaves_other_types T U a v a' :
  is_interface T = false -> is_interface U = false -> U <> T ->
  AppSet T a v = Ok a' ->
  AppGet U a' = AppGet U (default backgroundCtx (ctx a)).
Proof.
  intros HT HU Hne H. rewrite (AppSet_concrete _ _ _ HT) in H.
  injection H as <-. erewrite AppGet_app by reflexivity.
  rewrite !AppGet_Context, (TypeOf_zero_concrete _ HU). simpl.
  rewrite bool_decide_eq_false_2; [done|]. congruence.
Qed.

Lemma AppSet_leaves_other_types_witness :
  exists a1,
    AppSet TInt app0 (Some (TInt, PInt 7)) = Ok a1 /\
    exists a2,
      AppSet TString a1 (Some (TString, PString "x")) = Ok a2 /\
      AppGet TInt a2 = Ok (Some (TInt, PInt 7)).
Proof.
  eexists. split; [reflexivity|]. eexists. split; [reflexivity|].
  rewrite (AppSet_leaves_other_types TString TInt _ (Some (TString, PString "x"))
             _ eq_refl eq_refl ltac:(discriminate) eq_refl).
  reflexivity.
Defined.

(** X5: a value of another type bound under the descriptor of the concrete
    type [T], which [AddValue] lets a caller do, is not what [AppGet] returns
    for [T]: the type assertion fails and the caller gets the zero value. *)
Theorem AppGet_ignores_wrong_type T a v a' :
  is_interface T = false -> has_type T v = false ->
  AddValue a (reflect_TypeOf (zero_value T)) v = Ok a' ->
  AppGet T a' = Ok (zero_value T).
Proof.
  intros HT Hv H. apply AddValue_Ok in H as [-> _].
  erewrite AppGet_app by reflexivity. rewrite AppGet_Context. simpl.
  rewrite bool_decide_eq_true_2 by done.
  destruct v as [[D p]|]; simpl in *; [|done].
  rewrite HT in *. destruct (bool_decide (D = T)) eqn:HD; [|done].
  apply bool_decide_eq_true in HD. subst D. by rewrite HT in Hv.
Qed.

Lemma AppGet_ignores_wrong_type_witness :
  has_type TInt (Some (TString, PString "seven")) = false /\
  exists a',
    AddValue app0 (reflect_TypeOf (zero_value TInt))
      (Some (TString, PString "seven")) = Ok a' /\
    AppGet TInt a' = Ok (Some (TInt, PInt 0)).
Proof.
  split; [reflexivity|]. eexists. split; [reflexivity|].
  apply (AppGet_ignores_wrong_type TInt app0 (Some (TString, PString "seven")));
    reflexivity.
Defined.

Lemma AppGet_nil_key T (c : Context) :
  is_interface T = true -> nil ∉ bound_keys c -> AppGet T c = Ok nil.
Proof.
  intros HT Hc. rewrite AppGet_Context, (TypeOf_zero_interface _ HT).
  rewrite (Value_unbound _ _ Hc). simpl. unfold zero_value. by rewrite HT.
Qed.

(** X6: for an interface type [T], [AppGet] returns nil on every context on
    which no nil key is bound, whatever else is bound there; and [AddValue]
    never binds a nil key, so this stays so however many values are added to
    a supervisor. *)
Theorem AppGet_interface_is_nil T a :
  is_interface T = true ->
  nil ∉ bound_keys (default backgroundCtx (ctx a)) ->
  AppGet T (default backgroundCtx (ctx a)) = Ok nil /\
  (forall c, ctx a = Some c -> AppGet T a = Ok nil) /\
  (forall key v a',
     AddValue a key v = Ok a' ->
     AppGet T a' = Ok nil /\
     nil ∉ bound_keys (default backgroundCtx (ctx a'))).
Proof.
  intros HT Hc. split; [by apply AppGet_nil_key|]. split.
  - intros c Hctx. rewrite (AppGet_app _ _ _ Hctx). apply AppGet_nil_key; [done|].
    by rewrite Hctx in Hc.
  - intros key v a' H. apply AddValue_Ok in H as (-> & K & p & -> & _).
    assert (nil ∉ bound_keys (valueCtx (default backgroundCtx (ctx a))
                                (Some (K, p)) v)) as Hc'.
    { simpl. apply not_elem_of_cons. split; [done|exact Hc]. }
    split; [|exact Hc'].
    erewrite AppGet_app by reflexivity. by apply AppGet_nil_key.
Qed.

Lemma AppGet_interface_is_nil_witness :
  is_interface error_type = true /\
  exists a',
    AddValue app0 (Some (TString, PString "key"))
      (Some (errorString_ptr, PPtr (Some 1))) = Ok a' /\
    AppGet error_type a' = Ok nil.
Proof.
  split; [reflexivity|]. eexists. split; [reflexivity|].
  destruct (AppGet_interface_is_nil error_type app0 eq_refl) as (_ & _ & H).
  { simpl. apply not_elem_of_nil. }
  exact (proj1 (H (Some (TString, PString "key"))
                  (Some (errorString_ptr, PPtr (Some 1))) _ eq_refl)).
Defined.

End StoreMore.

(** ** More of [manager.Run] *)

Module RunMore.
Import Go Errors Slog Ctx Supervisor Os ErrorFacts MachineFacts ProgressFacts.
Import CtxMore MachineMore ShutdownMore LazyService Demo RunFacts.

Lemma Run_exec_split o a w sched st :
  Run_exec o a w sched = Some st ->
  exec svc_name svc_run (Run_start o a w).1.2 sched (Run_start o a w).2
    = Some st.
Proof. unfold Run_exec. by destruct (Run_start o a w) as [[a' e] st0]. Qed.

Lemma Run_exec_under_group o a w sched st :
  Run_exec o a w sched = Some st -> under_group (Run_start o a w).1.2 st.
Proof.
  intros Hx. apply Run_exec_split in Hx.
  apply (exec_invariant Service svc_name svc_run (Run_start o a w).1.2
           (under_group (Run_start o a w).1.2)
           (move_under_group Service svc_name svc_run _) sched
           (Run_start o a w).2 st); [|done].
  intros i c l p Ht. simpl in Ht.
  apply list_lookup_fmap_Some in Ht as (? & ? & ?). done.
Qed.

(** X7: services are kept in the order of their registration: after any
    number of [AddService] calls the slice is the old one followed by the new
    services in order, nothing else of the manager has changed, and [Run]
    starts exactly one goroutine for each of them. *)
Theorem AddService_keeps_order a ss o w :
  services (fold_left AddService ss a) = services a ++ ss /\
  AppContext (fold_left AddService ss a) = AppContext a /\
  logger (fold_left AddService ss a) = logger a /\
  svcs (Run_start o (fold_left AddService ss a) w).1.2 = services a ++ ss /\
  tasks (Run_start o (fold_left AddService ss a) w).2 =
    replicate (length (services a) + length ss) Spawned.
Proof.
  assert (services (fold_left AddService ss a) = services a ++ ss /\
          AppContext (fold_left AddService ss a) = AppContext a /\
          logger (fold_left AddService ss a) = logger a) as (H1 & H2 & H3).
  { revert a. induction ss as [|s ss IH]; intros a; simpl.
    - by rewrite app_nil_r.
    - destruct (IH (AddService a s)) as (-> & -> & ->). simpl.
      by rewrite <- app_assoc. }
  split; [done|]. split; [done|]. split; [done|]. split.
  - simpl. exact H1.
  - simpl. rewrite H1, <- length_app. clear.
    induction (services a ++ ss) as [|x l IH]; simpl; [done|]. by rewrite IH.
Qed.

(** X8: the first service to return an error that is not benign, while the
    group holds none, has its error recorded in the group, and with that move
    the group's context and the context of every service still running are
    done. *)
Theorem first_failure_cancels_siblings o a w sched st i ctx l p x :
  Run_exec o a w sched = Some st ->
  tasks st !! i = Some (Running ctx l p) ->
  observe p = RetF (Some x) -> ~ benign (Some x) ->
  err (group st) = None ->
  exists st',
    step svc_name svc_run (Run_start o a w).1.2 (Sched i) st = Some st' /\
    err (group st') = Some x /\
    tasks st' !! i = Some (Finished (Some x)) /\
    is_done (cancels st') (grpCtx (Run_start o a w).1.2) = true /\
    forall j c l' q,
      tasks st' !! j = Some (Running c l' q) ->
      is_done (cancels st') c = true.
Proof.
  intros Hx Ht Ho Hb Herr.
  pose proof (Run_exec_consistent _ _ _ _ _ Hx) as Hc.
  pose proof (Run_exec_under_group _ _ _ _ _ Hx) as Hu.
  set (e := (Run_start o a w).1.2) in *.
  assert (exists s, svcs e !! i = Some s) as [s Hs].
  { apply lookup_lt_is_Some_2. rewrite <- (c_length Hc).
    by eapply lookup_lt_Some. }
  assert (errOnce (group st) = false) as Honce.
  { rewrite (c_once Hc), Herr. apply bool_decide_eq_false_2. by intros [? ?]. }
  pose proof (contribution_other _ Hb) as Hcon.
  exists (finish_task svc_name e i s l (Some x) st).
  split; [by eapply step_return|].
  rewrite finish_task_group, finish_task_tasks, finish_task_cancels, Hcon, Honce.
  split; [done|]. split.
  { apply list_lookup_insert_eq. by eapply lookup_lt_Some. }
  assert (is_done (fire (gid e) SCanceled (cancels st)) (grpCtx e) = true) as Hd.
  { apply Err_done, Err_fired. exists (gid e), SCanceled. split.
    - simpl. apply elem_of_app. right. apply list_elem_of_here.
    - apply list_elem_of_here. }
  split; [done|]. intros j c l' q Hj.
  destruct (decide (i = j)) as [<-|Hne].
  { rewrite list_lookup_insert_eq in Hj by (by eapply lookup_lt_Some). done. }
  rewrite list_lookup_insert_ne in Hj by done.
  destruct (Hu j c l' q Hj) as (k & v & ->).
  apply Err_done. apply (Err_parent _ _ (grpCtx e)); [|by apply Err_done].
  by intros id Hid.
Qed.

Lemma first_failure_cancels_siblings_witness :
  Run_exec os0 two_failing empty_world [Sched 0; Sched 1] <> None /\
  exists st st',
    Run_exec os0 two_failing empty_world [Sched 0; Sched 1] = Some st /\
    step svc_name svc_run (Run_start os0 two_failing empty_world).1.2
      (Sched 0) st = Some st' /\
    err (group st') = Some boom /\
    forall j c l' q,
      tasks st' !! j = Some (Running c l' q) ->
      is_done (cancels st') c = true.
Proof.
  split; [discriminate|]. eexists.
  destruct (first_failure_cancels_siblings os0 two_failing empty_world
              [Sched 0; Sched 1] _ 0 _ _ _ boom eq_refl eq_refl eq_refl)
    as (st' & Hs & He & _ & _ & Hall).
  - apply not_benign_test. reflexivity.
  - reflexivity.
  - exists st'. split; [reflexivity|]. by repeat split.
Defined.

(** X9: in the course of a run nothing is undone: a context that reports an
    error goes on reporting that same error, the error the group holds is not
    replaced, a closure that has returned keeps its contribution and cannot be
    scheduled again, and what [Run] returned stays. *)
Theorem run_state_only_grows o a w sched st more st' :
  Run_exec o a w sched = Some st ->
  exec svc_name svc_run (Run_start o a w).1.2 more st = Some st' ->
  (forall c x, Err (cancels st) c = Some x -> Err (cancels st') c = Some x) /\
  (forall x, err (group st) = Some x -> err (group st') = Some x) /\
  (forall i r, tasks st !! i = Some (Finished r) ->
     tasks st' !! i = Some (Finished r) /\
     step svc_name svc_run (Run_start o a w).1.2 (Sched i) st = None) /\
  (forall r, returned st = Some r -> returned st' = Some r).
Proof.
  intros Hx Hm. pose proof (Run_exec_consistent _ _ _ _ _ Hx) as Hc.
  destruct (exec_stable _ _ _ _ _ _ _ Hc Hm) as (H1 & H2 & H3).
  split; [|split; [done|split; [|done]]].
  - intros c x HE. by eapply exec_Err_stable.
  - intros i r Hi. split; [by apply H2|]. simpl. by rewrite Hi.
Qed.

Lemma run_state_only_grows_witness :
  Run_exec os0 same_name world1
    [Sched 0; Sched 1; Sched 0; Fire 0 SCanceled] <> None /\
  exists st,
    Run_exec os0 same_name world1
      [Sched 0; Sched 1; Sched 0; Fire 0 SCanceled] = Some st /\
    exec svc_name svc_run (Run_start os0 same_name world1).1.2
      [Watch; Sched 1; Sched 1; Sched 1; WaitReturns] st
      = Some same_name_end /\
    Err (cancels st) root0 = Some Canceled /\
    Err (cancels same_name_end) root0 = Some Canceled.
Proof.
  split; [discriminate|]. eexists. split; [reflexivity|].
  split; [reflexivity|]. split; [reflexivity|].
  eapply (run_state_only_grows os0 same_name world1
            [Sched 0; Sched 1; Sched 0; Fire 0 SCanceled] _
            [Watch; Sched 1; Sched 1; Sched 1; WaitReturns] same_name_end
            eq_refl eq_refl); reflexivity.
Defined.

(** X10: [Run] never returns a benign error: whatever it returns other than
    nil is an error that some service returned and that does not match
    [context.Canceled] or [context.DeadlineExceeded], however wrapped; in
    particular it is neither of the two. *)
Theorem Run_never_returns_benign o a w sched st x :
  Run_exec o a w sched = Some st -> returned st = Some (Some x) ->
  ~ benign (Some x) /\ x <> Canceled /\ x <> DeadlineExceeded /\
  exists i, (i, Some x) ∈ returns st.
Proof.
  intros Hx Hr. pose proof (Run_returned_first _ _ _ _ _ _ Hx Hr) as Hf.
  assert (~ benign (Some x)) as Hb.
  { symmetry in Hf. apply first_error_elem in Hf. unfold contributions in Hf.
    apply list_elem_of_In, in_map_iff in Hf as ([i raw] & Heq & _).
    simpl in Heq. intros Hb.
    destruct (contribution_cases raw) as [Hn|Hn]; rewrite Hn in Heq; [done|].
    subst raw. by rewrite (contribution_benign _ Hb) in Hn. }
  split; [done|]. split; [|split].
  - intros ->. apply Hb. exists Canceled. split; [done|]. left.
    by apply Matches_same.
  - intros ->. apply Hb. exists DeadlineExceeded. split; [done|]. right.
    by apply Matches_same.
  - apply first_error_returned. by symmetry.
Qed.

Lemma Run_never_returns_benign_witness :
  Run_exec os0 two_failing empty_world two_failing_sched
    = Some two_failing_end /\
  returned two_failing_end = Some (Some bang) /\
  ~ benign (Some bang).
Proof.
  split; [reflexivity|]. split; [reflexivity|].
  apply (Run_never_returns_benign os0 two_failing empty_world
           two_failing_sched two_failing_end bang eq_refl eq_refl).
Defined.

(** X11: the error a context reports is always benign, so a service that
    returns the error of a context, its own or any other, as it is or wrapped
    once more, contributes nil and never makes [Run] fail. *)
Theorem context_error_is_benign w c :
  contribution (Err w c) = None /\
  (forall x, Err w c = Some x -> benign (Some x)) /\
  (forall x i m ms, Err w c = Some x ->
     contribution (Some (ErrorVal i m ms [x])) = None).
Proof.
  assert (forall x, Err w c = Some x -> benign (Some x)) as Hb.
  { intros x Hx. exists x. split; [done|].
    destruct (Err_sentinel _ _ _ Hx) as [-> | ->]; [left|right];
      by apply Matches_same. }
  split; [|split; [done|]].
  - destruct (Err w c) as [x|] eqn:Hx; [|done].
    by apply contribution_benign, Hb.
  - intros x i m ms Hx. apply contribution_benign.
    destruct (Hb x Hx) as (y & [= <-] & Hy).
    eexists. split; [done|].
    destruct Hy as [Hy|Hy]; [left|right];
      (eapply Matches_unwrap; [apply list_elem_of_here|done]).
Qed.

(** X12: an error is swallowed as soon as anything it unwraps to is benign:
    an error that joins a genuine failure with a cancellation, or that wraps
    one at any depth, or whose own [Is] method accepts [context.Canceled],
    contributes nil, and the genuine failure inside it is not reported. *)
Theorem wrapped_benign_is_swallowed i m ms ws :
  ((exists w0, w0 ∈ ws /\ benign (Some w0)) ->
   contribution (Some (ErrorVal i m ms ws)) = None) /\
  (SCanceled ∈ ms \/ SDeadlineExceeded ∈ ms ->
   contribution (Some (ErrorVal i m ms ws)) = None) /\
  (ms = [] -> (forall w0, w0 ∈ ws -> ~ benign (Some w0)) ->
   contribution (Some (ErrorVal i m ms ws)) = Some (ErrorVal i m ms ws)).
Proof.
  split; [|split].
  - intros (w0 & Hin & (y & [= <-] & Hy)). apply contribution_benign.
    eexists. split; [done|].
    destruct Hy as [Hy|Hy]; [left|right]; by eapply Matches_unwrap.
  - intros H. apply contribution_benign. eexists. split; [done|].
    destruct H as [H|H]; [left|right]; apply Matches_custom; simpl;
      by apply bool_decide_eq_true.
  - intros -> Hall. apply contribution_other.
    intros (y & [= <-] & Hy).
    assert (forall t, (t = Canceled \/ t = DeadlineExceeded) ->
                      Matches t (ErrorVal i m [] ws) ->
                      exists w0, w0 ∈ ws /\ Matches t w0) as Hinv.
    { intros t Ht HM. inversion HM as [? Hs|? Hs|? ? ? ? w0 Hin HM']; subst.
      - destruct Ht as [-> | ->]; discriminate.
      - destruct Ht as [-> | ->]; simpl in Hs; discriminate.
      - by eauto. }
    destruct Hy as [Hy|Hy];
      (apply Hinv in Hy as (w0 & Hin & HM); [|by auto]);
      apply (Hall w0 Hin); exists w0; auto.
Qed.

Lemma wrapped_benign_is_swallowed_witness :
  Canceled ∈ [boom; Canceled] /\ benign (Some Canceled) /\
  contribution (Some (ErrorVal 9 "boom\ncontext canceled" [] [boom; Canceled]))
  = None.
Proof.
  assert (benign (Some Canceled)) as Hb.
  { exists Canceled. split; [done|]. left. by apply Matches_same. }
  split; [apply list_elem_of_further, list_elem_of_here|]. split; [exact Hb|].
  apply (proj1 (wrapped_benign_is_swallowed 9 "boom\ncontext canceled" []
                  [boom; Canceled])).
  exists Canceled. split; [apply list_elem_of_further, list_elem_of_here|done].
Defined.

(** X13: with no service registered [Run] returns nil: the schedule with the
    single move of [Wait] lets it return, and it returns nil under every
    schedule under which it returns. *)
Theorem Run_without_services o a w :
  services a = [] ->
  Run_under o a w [WaitReturns] = Some None /\
  forall sched r, Run_under o a w sched = Some r -> r = None.
Proof.
  intros Hs. split.
  - unfold Run_under, Run_exec, Run_start. simpl. by rewrite Hs.
  - intros sched r Hr. unfold Run_under in Hr.
    destruct (Run_exec o a w sched) as [st|] eqn:Hx; [|done].
    pose proof (Run_returned_first _ _ _ _ _ _ Hx Hr) as Hf.
    pose proof (Run_returned_all _ _ _ _ _ _ Hx Hr) as Hp.
    rewrite Hs in Hp. simpl in Hp. apply Permutation_nil_r in Hp.
    apply fmap_nil_inv in Hp. unfold contributions in Hf.
    by rewrite Hp in Hf.
Qed.

Lemma Run_without_services_witness :
  services (NewWithContext backgroundCtx) = [] /\
  Run_under os0 (NewWithContext backgroundCtx) empty_world [WaitReturns]
  = Some None.
Proof.
  split; [reflexivity|].
  apply (Run_without_services os0 (NewWithContext backgroundCtx) empty_world
           eq_refl).
Defined.

(** X14: the goroutine that reports the interrupt writes its record only once
    the manager's context is done: in every state of a run in which it has
    reported, the root context reports an error. *)
Theorem watcher_reports_only_when_done o a w sched st :
  Run_exec o a w sched = Some st ->
  watcher_fired st = true ->
  Err (cancels st) (root (Run_start o a w).1.2) <> None /\
  Err (cancels st) (AppContext a) <> None.
Proof.
  intros Hx Hf. apply Run_exec_split in Hx.
  assert (Err (cancels st) (root (Run_start o a w).1.2) <> None) as H.
  { revert Hf.
    apply (exec_invariant Service svc_name svc_run (Run_start o a w).1.2
             (fun st => watcher_fired st = true ->
                        Err (cancels st) (root (Run_start o a w).1.2) <> None)
             (move_watcher Service svc_name svc_run _) sched
             (Run_start o a w).2 st); [|done].
    simpl. done. }
  split; [done|]. apply Err_fired in H as (id & s & Hin & Hid).
  apply Err_fired. by exists id, s.
Qed.

Lemma watcher_reports_only_when_done_witness :
  Run_exec os0 same_name world1 same_name_sched = Some same_name_end /\
  watcher_fired same_name_end = true /\
  Err (cancels same_name_end) root0 <> None.
Proof.
  split; [reflexivity|]. split; [reflexivity|].
  apply (watcher_reports_only_when_done os0 same_name world1 same_name_sched
           same_name_end eq_refl eq_refl).
Defined.

(** X15: every service runs under the manager's context: the context it is
    given has the deadline of the manager's context, and in every state of a
    run in which the manager's context is done, by a cancel call, a deadline
    or a signal outside, so are the group's context and the context of every
    service that is running. *)
Theorem services_run_under_root o a w sched st :
  Run_exec o a w sched = Some st ->
  (forall i c l p,
     tasks st !! i = Some (Running c l p) ->
     Deadline c = Deadline (AppContext a) /\
     (Err (cancels st) (AppContext a) <> None ->
      is_done (cancels st) c = true)) /\
  (Err (cancels st) (AppContext a) <> None ->
   is_done (cancels st) (grpCtx (Run_start o a w).1.2) = true).
Proof.
  intros Hx. pose proof (Run_exec_under_group _ _ _ _ _ Hx) as Hu.
  assert (forall c, (exists k v,
             c = valueCtx (grpCtx (Run_start o a w).1.2) k v) \/
             c = grpCtx (Run_start o a w).1.2 ->
           Err (cancels st) (AppContext a) <> None ->
           is_done (cancels st) c = true) as Hdone.
  { intros c Hc HE. apply Err_done.
    apply (Err_parent _ _ (AppContext a)); [|done].
    intros id Hid. destruct Hc as [(k & v & ->)| ->]; simpl;
      by apply list_elem_of_further. }
  split.
  - intros i c l p Ht. destruct (Hu i c l p Ht) as (k & v & ->).
    split; [done|]. apply Hdone. left. by eauto.
  - apply Hdone. by right.
Qed.

Lemma services_run_under_root_witness :
  Run_exec os0 same_name world1
    [Sched 0; Sched 1; Sched 0; Fire 0 SCanceled] <> None /\
  exists st,
    Run_exec os0 same_name world1
      [Sched 0; Sched 1; Sched 0; Fire 0 SCanceled] = Some st /\
    Err (cancels st) root0 <> None /\
    is_done (cancels st) (grpCtx (Run_start os0 same_name world1).1.2) = true.
Proof.
  split; [discriminate|]. eexists. split; [reflexivity|].
  split; [discriminate|].
  apply (services_run_under_root os0 same_name world1
           [Sched 0; Sched 1; Sched 0; Fire 0 SCanceled] _ eq_refl).
  discriminate.
Defined.

Lemma Run_exec_err_fired o a w sched st :
  Run_exec o a w sched = Some st ->
  is_Some (err (group st)) ->
  exists s, (gid (Run_start o a w).1.2, s) ∈ fired (cancels st).
Proof.
  intros Hx.
  assert (consistent (Run_start o a w).1.2 st /\
          (is_Some (err (group st)) ->
           exists s, (gid (Run_start o a w).1.2, s) ∈ fired (cancels st)))
    as [_ H]; [|exact H].
  apply Run_exec_split in Hx.
  apply (exec_invariant Service svc_name svc_run (Run_start o a w).1.2
           (fun st => consistent (Run_start o a w).1.2 st /\
              (is_Some (err (group st)) ->
               exists s, (gid (Run_start o a w).1.2, s) ∈ fired (cancels st))))
    with sched (Run_start o a w).2; [| |done].
  - intros s1 s2 [Hc H] Hm. split.
    + by eapply move_consistent.
    + by eapply move_err_fired.
  - split.
    + destruct (Run_start_shape o a w) as (a' & e & st0 & -> & _ & _ & _ & ->).
      apply spawn_all_consistent.
    + simpl. by intros [? ?].
Qed.

(** X16: a run can always be stopped. If every registered service comes to
    its return once the context it was called with is done, then from any
    state of a run in which the root context is done or an error is recorded
    in the group, the services and [Wait] alone, with no further event from
    outside, bring [Run] to its return; it returns the group's error, which
    is the recorded one if there was one. *)
Theorem cancelled_run_can_return o a w sched st :
  (forall s c, s ∈ services a -> returns_once_done c (Run s c)) ->
  Run_exec o a w sched = Some st ->
  returned st = None ->
  is_done (cancels st) (root (Run_start o a w).1.2) = true \/
    is_Some (err (group st)) ->
  exists more st',
    Forall (fun lb => lb = WaitReturns \/ exists j, lb = Sched j) more /\
    Run_exec o a w (sched ++ more) = Some st' /\
    returned st' = Some (err (group st')) /\
    (forall x, err (group st) = Some x -> returned st' = Some (Some x)).
Proof.
  intros Hco Hx Hret Hstop.
  pose proof (Run_exec_consistent _ _ _ _ _ Hx) as Hc.
  pose proof (Run_exec_under_group _ _ _ _ _ Hx) as Hu.
  pose proof (Run_exec_err_fired _ _ _ _ _ Hx) as Hef.
  pose proof (Run_exec_split _ _ _ _ _ Hx) as Hx'.
  destruct (Run_start_shape o a w) as (a' & e & st0 & Hrs & Hsv & Hgid & Hg & _).
  rewrite Hrs in *. simpl in *.
  assert (forall s c l, s ∈ svcs e -> returns_once_done c (svc_run s c l))
    as Hco'.
  { intros s c l Hs. apply Hco. by rewrite <- Hsv. }
  assert (cooperative st) as Hcoop.
  { apply (exec_cooperative Service svc_name svc_run e Hco' sched st0);
      [|done].
    intros i c l p Ht.
    assert (st0 = (Run_start o a w).2) as -> by by rewrite Hrs.
    simpl in Ht. apply list_lookup_fmap_Some in Ht as (? & ? & ?). done. }
  assert (is_done (cancels st) (grpCtx e) = true) as Hd.
  { apply Err_done. destruct Hstop as [Hr|He].
    - apply Err_done in Hr. apply (Err_parent _ _ (root e)); [|done].
      intros id Hid. rewrite Hg. simpl. by apply list_elem_of_further.
    - destruct (Hef He) as [s Hs]. apply Err_fired. exists (gid e), s.
      split; [done|]. rewrite Hg, Hgid. simpl. apply list_elem_of_here. }
  destruct (can_stop Service svc_name svc_run e Hco' st (c_length Hc) Hcoop Hu
              Hd Hret) as (more & st' & Hmore & Hx2 & Hr2).
  exists more, st'. split; [done|]. split; [|split; [done|]].
  - unfold Run_exec. rewrite Hrs.
    by apply (exec_app Service svc_name svc_run e sched more st0 st st').
  - intros x Hx3. rewrite Hr2.
    by rewrite (proj1 (exec_stable Service svc_name svc_run e _ _ _ Hc Hx2)
                  x Hx3).
Qed.

Lemma cancelled_run_can_return_witness :
  exists more st',
    Run_exec os0 same_name world1
      ([Sched 0; Sched 1; Sched 0; Fire 0 SCanceled] ++ more) = Some st' /\
    returned st' = Some (err (group st')).
Proof.
  destruct (cancelled_run_can_return os0 same_name world1
              [Sched 0; Sched 1; Sched 0; Fire 0 SCanceled]
              (state_of (Run_exec os0 same_name world1
                           [Sched 0; Sched 1; Sched 0; Fire 0 SCanceled])))
    as (more & st' & _ & Hx & Hr & _).
  - intros s c Hs. apply elem_of_cons in Hs as [->|Hs].
    + by eapply rd_ret.
    + apply list_elem_of_singleton in Hs as ->.
      eapply rd_done; [reflexivity|]. eapply rd_err; [reflexivity|].
      intros err. by eapply rd_ret.
  - reflexivity.
  - reflexivity.
  - left. reflexivity.
  - by exists more, st'.
Defined.

End RunMore.

(** ** More of [lazyApp.Run] *)

Module AppRunMore.
Import Go Errors Slog Ctx Supervisor Os ErrorFacts MachineFacts ProgressFacts.
Import CtxMore MachineMore ShutdownMore StoreFacts LazyApp Demo.

(** [Run_start], written out. *)
Lemma Run_start_Ok o a w :
  let c0 := match ctx a with
            | Some c => c
            | None => signalCtx backgroundCtx (next_id w) [Interrupt]
            end in
  let w1 := match ctx a with
            | Some _ => w
            | None => {| fired := fired w;
                         notify := notify w ++ [(next_id w, [Interrupt])];
                         next_id := S (next_id w) |}
            end in
  exists v,
    AppGet TLogger c0 = Ok v /\
    let l := With (With (default (if stdout_terminal o
                                  then {| handler := "tint"; attrs := [] |}
                                  else {| handler := "json"; attrs := [] |})
                           (of_any v)) "app" (name a))
               "version" (version a) in
    let rootc := valueCtx c0 (Some (TRtype, PType TLogger))
                   (to_any (Some l)) in
    let e := {| svcs := services a;
                app_logger := l;
                root := rootc;
                grpCtx := cancelCtx rootc (next_id w1);
                gid := next_id w1;
                deferred_cancel := match ctx a with
                                   | Some _ => None
                                   | None => Some (next_id w)
                                   end;
                watches_root := false |} in
    Run_start o a w =
    Ok ({| name := name a; version := version a; ctx := Some rootc;
           logger := Some l; services := services a; done := done a;
           cancel := match ctx a with
                     | Some _ => cancel a
                     | None => Some (next_id w)
                     end |},
        e,
        spawn_all e {| fired := fired w1; notify := notify w1;
                       next_id := S (next_id w1) |}
          [RegionStart "lazyapp.Run"; Record_ LevelInfo l "starting app"]).
Proof.
  destruct a as [n v c lg sv dn cn]. destruct c as [c|]; simpl.
  - unfold Run_start. simpl. unfold AppGet. simpl.
    destruct (type_assert TLogger _) as [t ok]. eexists. split; [reflexivity|].
    simpl. by destruct (of_any _).
  - unfold Run_start. simpl. eexists. split; [reflexivity|]. reflexivity.
Qed.

Lemma Run_start_env o a w a' e st0 :
  Run_start o a w = Ok (a', e, st0) ->
  svcs e = services a /\
  root e = valueCtx (match ctx a with
                     | Some c => c
                     | None => signalCtx backgroundCtx (next_id w) [Interrupt]
                     end)
             (Some (TRtype, PType TLogger)) (to_any (Some (app_logger e))) /\
  grpCtx e = cancelCtx (root e) (gid e).
Proof.
  intros Hrun. destruct (Run_start_Ok o a w) as (v & _ & H). simpl in H.
  rewrite Hrun in H. injection H as _ -> _. simpl. by repeat split.
Qed.


(** X17: the set-up of [Run] never panics, whatever was added to the
    supervisor before. It leaves the logger of the run, which carries the
    name and the version of the supervisor as its last two attributes, in the
    supervisor's field and bound on its context, so that [AppGet] returns it
    on the supervisor and on the group's context; the services are those
    registered, with one goroutine each. *)
Theorem Run_start_installs_logger o a w :
  exists a' e st0 l0,
    Run_start o a w = Ok (a', e, st0) /\
    app_logger e = With (With l0 "app" (name a)) "version" (version a) /\
    logger a' = Some (app_logger e) /\
    ctx a' = Some (root e) /\
    AppGet TLogger a' = Ok (to_any (Some (app_logger e))) /\
    AppGet TLogger (grpCtx e) = Ok (to_any (Some (app_logger e))) /\
    services a' = services a /\ svcs e = services a /\
    length (tasks st0) = length (services a).
Proof.
  destruct (Run_start_Ok o a w) as (v & _ & H). simpl in H.
  eexists _, _, _, _. split; [exact H|]. simpl.
  repeat split. by rewrite length_map.
Qed.

(** X18: a logger set through [AppSet] before [Run] is the logger of the run,
    with the two attributes added; without one, on a supervisor with no
    context or with a context that binds nothing for the logger's type, the
    logger writes to the terminal sink if standard output is a terminal and
    to the JSON sink otherwise. *)
Theorem Run_uses_logger_set_before o a w :
  (forall a0 l0,
     AppSet TLogger a0 (to_any (Some l0)) = Ok a ->
     exists a' e st0,
       Run_start o a w = Ok (a', e, st0) /\
       app_logger e = With (With l0 "app" (name a)) "version" (version a)) /\
  ((forall c, ctx a = Some c ->
              Some (TRtype, PType TLogger) ∉ bound_keys c) ->
   exists a' e st0,
     Run_start o a w = Ok (a', e, st0) /\
     app_logger e =
       {| handler := if stdout_terminal o then "tint" else "json";
          attrs := [("app", name a); ("version", version a)] |}).
Proof.
  split.
  - intros a0 l0 Hset. rewrite AppSet_concrete in Hset by done.
    destruct (Run_start_Ok o a w) as (v & Hv & H).
    injection Hset as <-. simpl in *.
    rewrite AppGet_Context in Hv. simpl in Hv. injection Hv as <-.
    eexists _, _, _. split; [exact H|]. reflexivity.
  - intros Hun. destruct (Run_start_Ok o a w) as (v & Hv & H).
    assert (v = to_any None) as ->.
    { destruct (ctx a) as [c|] eqn:Hc.
      - rewrite (AppGet_unbound TLogger c (Hun c eq_refl)) in Hv.
        by injection Hv as <-.
      - simpl in Hv. rewrite AppGet_Context in Hv. simpl in Hv.
        by injection Hv as <-. }
    eexists _, _, _. split; [exact H|]. simpl.
    by destruct (stdout_terminal o).
Qed.

Lemma Run_uses_logger_set_before_witness :
  AppSet TLogger app0 (to_any (Some {| handler := "mine"; attrs := [] |}))
  = Ok (set_ctx app0
          (valueCtx backgroundCtx (Some (TRtype, PType TLogger))
             (to_any (Some {| handler := "mine"; attrs := [] |})))) /\
  exists a' e st0,
    Run_start os0
      (set_ctx app0
         (valueCtx backgroundCtx (Some (TRtype, PType TLogger))
            (to_any (Some {| handler := "mine"; attrs := [] |}))))
      empty_world = Ok (a', e, st0) /\
    app_logger e =
      {| handler := "mine";
         attrs := [("app", "test"); ("version", "1.0.0")] |}.
Proof.
  split; [reflexivity|].
  apply (proj1 (Run_uses_logger_set_before os0 _ empty_world) app0
           {| handler := "mine"; attrs := [] |} eq_refl).
Defined.

(** X19: when the goroutine of a service begins, the service is called with
    the logger of the run extended by the attribute [service] with the
    service's name, and with a context of its own on which [AppGet] returns
    that logger, while the group's context still gives the logger of the run.
    For every other concrete type the service's context gives what the
    supervisor's context gave before [Run], so the values added with
    [AddValue] or [AppSet] reach every service; and it has the deadline of the
    supervisor's context. No other goroutine is touched. *)
Theorem service_gets_own_logger o a w a' e st0 st i st' :
  Run_start o a w = Ok (a', e, st0) ->
  tasks st !! i = Some Spawned ->
  step svc_name Run e (Sched i) st = Some st' ->
  exists s l c,
    services a !! i = Some s /\
    l = With (app_logger e) "service" (Name (Desc s)) /\
    tasks st' !! i = Some (Running c l (Run s c l)) /\
    AppGet TLogger c = Ok (to_any (Some l)) /\
    AppGet TLogger (grpCtx e) = Ok (to_any (Some (app_logger e))) /\
    (forall U c0, is_interface U = false -> U <> TLogger ->
       ctx a = Some c0 -> AppGet U c = AppGet U c0) /\
    (forall c0, ctx a = Some c0 -> Deadline c = Deadline c0) /\
    (forall j, j <> i -> tasks st' !! j = tasks st !! j).
Proof.
  intros Hrun Ht Hs.
  destruct (Run_start_env _ _ _ _ _ _ Hrun) as (Hsvcs & Hroot & Hgrp).
  destruct (start_is_local Service svc_name Run e i st st' Ht Hs)
    as (_ & _ & Hoth & s & l & Hsv & -> & Hi).
  exists s, (With (app_logger e) "service" (svc_name s)),
    (valueCtx (grpCtx e) (Some (TRtype, PType TLogger))
       (to_any (Some (With (app_logger e) "service" (svc_name s))))).
  split; [by rewrite <- Hsvcs|]. split; [reflexivity|]. split; [exact Hi|].
  split.
  { apply (AppGet_bound TLogger (grpCtx e)
             (to_any (Some (With (app_logger e) "service" (svc_name s)))));
      reflexivity. }
  split.
  { rewrite Hgrp, Hroot, AppGet_Context. reflexivity. }
  split; [|split; [|exact Hoth]].
  - intros U c0 HU Hne Hc0. rewrite Hgrp, Hroot, Hc0, !AppGet_Context.
    rewrite (TypeOf_zero_concrete _ HU). simpl.
    by rewrite !bool_decide_eq_false_2 by congruence.
  - intros c0 Hc0. by rewrite Hgrp, Hroot, Hc0.
Qed.

Lemma service_gets_own_logger_witness :
  exists a' e st0 st',
    Run_start os0 (AddService app0 (ServiceFunc "web" (fun _ _ => Ret None)))
      empty_world = Ok (a', e, st0) /\
    tasks st0 !! 0 = Some Spawned /\
    step svc_name Run e (Sched 0) st0 = Some st' /\
    exists s l c,
      tasks st' !! 0 = Some (Running c l (Run s c l)) /\
      l = {| handler := "json";
             attrs := [("app", "test"); ("version", "1.0.0");
                       ("service", "web")] |}.
Proof.
  eexists _, _, _, _. split; [reflexivity|].
  match goal with |- tasks ?s0 !! 0 = _ /\ _ => set (st0 := s0) end.
  split; [reflexivity|]. split; [reflexivity|].
  destruct (service_gets_own_logger os0
              (AddService app0 (ServiceFunc "web" (fun _ _ => Ret None)))
              empty_world _ _ st0 st0 0 _ eq_refl eq_refl eq_refl)
    as (s & l & c & Hsv & Hl & Hi & _).
  exists s, l, c. split; [exact Hi|]. rewrite Hl.
  simpl in Hsv. injection Hsv as <-. reflexivity.
Defined.

Lemma exec_notify e sched st st' :
  exec svc_name Run e sched st = Some st' ->
  notify (cancels st') = notify (cancels st).
Proof.
  intros Hx.
  apply (exec_invariant Service svc_name Run e
           (fun s => notify (cancels s) = notify (cancels st))) with sched st;
    [|done|done].
  intros s1 s2 H1 Hm. rewrite <- H1. by eapply move_notify.
Qed.

(** X20: on a supervisor that was given a context, [Run] makes no signal
    context and defers no cancel call: no registration for signals is added,
    the root has the cancellation and the deadline of the given context, and
    when [Run] returns, the given context reports what it reported before
    (given that it was made before [Run] was called). *)
Theorem Run_keeps_given_context o a w c :
  ctx a = Some c ->
  exists a' e st0,
    Run_start o a w = Ok (a', e, st0) /\
    cancel a' = cancel a /\ deferred_cancel e = None /\
    notify (cancels st0) = notify w /\
    cancel_ids (root e) = cancel_ids c /\
    Deadline (root e) = Deadline c /\
    ((forall id, id ∈ cancel_ids c -> id < next_id w) ->
     forall sched st st',
       exec svc_name Run e sched st0 = Some st ->
       step svc_name Run e WaitReturns st = Some st' ->
       Err (cancels st') c = Err (cancels st) c /\
       Err (cancels st') (root e) = Err (cancels st) (root e)).
Proof.
  intros Hc. destruct (Run_start_Ok o a w) as (v & _ & H). simpl in H.
  rewrite Hc in H. eexists _, _, _. split; [exact H|]. simpl.
  repeat (split; [done|]). intros Hfresh sched st st' Hx Hs.
  simpl in Hs. destruct (returned st); [done|].
  destruct (forallb is_finished (tasks st)); [|done].
  injection Hs as <-. simpl.
  assert (forall c', cancel_ids c' = cancel_ids c ->
            Err (fire (next_id w) SCanceled (cancels st)) c'
            = Err (cancels st) c') as HE.
  { intros c' Hids. apply (Err_unrelated _ _ [(next_id w, SCanceled)]);
      [done|].
    intros id s Hin Hid. apply list_elem_of_singleton in Hin.
    injection Hin as -> ->. rewrite Hids in Hid. apply Hfresh in Hid. lia. }
  split; by apply HE.
Qed.

Lemma Run_keeps_given_context_witness :
  ctx (NewWithContext os0 root0 "test" "1.0.0") = Some root0 /\
  exists a' e st0 st',
    Run_start os0 (NewWithContext os0 root0 "test" "1.0.0") world1
      = Ok (a', e, st0) /\
    step svc_name Run e WaitReturns st0 = Some st' /\
    Err (cancels st') root0 = None.
Proof.
  split; [reflexivity|].
  destruct (Run_keeps_given_context os0
              (NewWithContext os0 root0 "test" "1.0.0") world1 root0 eq_refl)
    as (a' & e & st0 & Hrun & _ & _ & _ & _ & _ & H).
  assert (exists st', step svc_name Run e WaitReturns st0 = Some st')
    as [st' Hs].
  { injection Hrun as <- <- <-. by eexists. }
  exists a', e, st0, st'. split; [exact Hrun|]. split; [exact Hs|].
  destruct (H ltac:(intros id Hid; apply list_elem_of_singleton in Hid;
                    subst id; simpl; lia) [] st0 st' eq_refl Hs) as [-> _].
  injection Hrun as <- <- <-. reflexivity.
Defined.



(** X22: the root that [Run] makes is registered for the interrupt signal
    only: in every state of a run the delivery of a termination signal leaves
    what the root and the group's context report as it was. *)
Theorem Run_ignores_sigterm o a w :
  ctx a = None -> well_formed w ->
  exists a' e st0,
    Run_start o a w = Ok (a', e, st0) /\
    forall sched st,
      exec svc_name Run e sched st0 = Some st ->
      exists st',
        step svc_name Run e (Deliver SIGTERM) st = Some st' /\
        Err (cancels st') (root e) = Err (cancels st) (root e) /\
        Err (cancels st') (grpCtx e) = Err (cancels st) (grpCtx e).
Proof.
  intros Hc [_ Hn]. destruct (Run_start_Ok o a w) as (v & _ & H). simpl in H.
  rewrite Hc in H. eexists _, _, _. split; [exact H|].
  intros sched st Hx. eexists. split; [reflexivity|]. simpl.
  pose proof (exec_notify _ _ _ _ Hx) as Hnot. simpl in Hnot.
  destruct (deliver_fold SIGTERM (notify (cancels st)) (cancels st))
    as (Hf & _ & _). fold (deliver SIGTERM (cancels st)) in Hf.
  assert (forall id s,
            (id, s) ∈ map (fun r : nat * list signal => (r.1, SCanceled))
                        (List.filter (fun r => bool_decide (SIGTERM ∈ r.2))
                           (notify (cancels st))) ->
            id < next_id w) as Hlt.
  { intros id s Hin. apply list_elem_of_In, in_map_iff in Hin
      as ([id' sg] & [= <- <-] & Hin).
    apply filter_In in Hin as [Hin Hsg]. simpl in *.
    apply bool_decide_eq_true in Hsg. rewrite Hnot in Hin.
    apply in_app_or in Hin as [Hin|Hin].
    - apply list_elem_of_In in Hin. by eapply Hn.
    - destruct Hin as [[= <- <-]|[]].
      apply list_elem_of_singleton in Hsg. discriminate. }
  split; (eapply Err_unrelated; [exact Hf|]); intros id s Hin Hid;
    apply Hlt in Hin; simpl in Hid.
  - apply list_elem_of_singleton in Hid. lia.
  - apply elem_of_cons in Hid as [->|Hid]; [lia|].
    apply list_elem_of_singleton in Hid. lia.
Qed.

Lemma Run_ignores_sigterm_witness :
  ctx app0 = None /\ well_formed empty_world /\
  exists a' e st0 st',
    Run_start os0 app0 empty_world = Ok (a', e, st0) /\
    step svc_name Run e (Deliver SIGTERM) st0 = Some st' /\
    Err (cancels st') (root e) = Err (cancels st0) (root e).
Proof.
  assert (well_formed empty_world) as Hw.
  { split; intros ? ? H; by apply elem_of_nil in H. }
  split; [reflexivity|]. split; [exact Hw|].
  destruct (Run_ignores_sigterm os0 app0 empty_world eq_refl Hw)
    as (a' & e & st0 & Hrun & H).
  destruct (H [] st0 eq_refl) as (st' & Hs & Hr & _).
  by exists a', e, st0, st'.
Defined.

(** X23: under [Run] the nil-logger default of a [ServiceFunc] service is
    never used: when the goroutine of a service made by [ServiceFunc n f]
    begins, what runs is [f] on the service's own context and the logger of
    the run extended by the attribute [service] with [n]; only a direct call
    of the service with a nil logger runs [f] with [slog.Default()]. *)
Theorem ServiceFunc_runs_with_service_logger o a w a' e st0 st i n f :
  Run_start o a w = Ok (a', e, st0) ->
  services a !! i = Some (ServiceFunc n f) ->
  tasks st !! i = Some Spawned ->
  exists st' c,
    step svc_name Run e (Sched i) st = Some st' /\
    tasks st' !! i =
      Some (Running c (With (app_logger e) "service" n)
              (f c (With (app_logger e) "service" n))) /\
    AppGet TLogger c = Ok (to_any (Some (With (app_logger e) "service" n))) /\
    (forall c', serviceFunc_Run {| sf_name := n; f := f |} c' None
                = f c' Slog.Default).
Proof.
  intros Hrun Hs Ht.
  destruct (Run_start_env _ _ _ _ _ _ Hrun) as (Hsvcs & _ & _).
  rewrite <- Hsvcs in Hs.
  eexists _, _. split; [simpl; rewrite Ht, Hs; reflexivity|].
  split; [|split; [|done]].
  - simpl. apply list_lookup_insert_eq. by eapply lookup_lt_Some.
  - apply (AppGet_bound TLogger (grpCtx e)); reflexivity.
Qed.

Lemma ServiceFunc_runs_with_service_logger_witness :
  exists a' e st0 st' c,
    Run_start os0 (AddService app0 (ServiceFunc "web" (fun _ _ => Ret None)))
      empty_world = Ok (a', e, st0) /\
    step svc_name Run e (Sched 0) st0 = Some st' /\
    tasks st' !! 0 =
      Some (Running c {| handler := "json";
                         attrs := [("app", "test"); ("version", "1.0.0");
                                   ("service", "web")] |}
              (Ret None)).
Proof.
  eexists _, _, _.
  match goal with
  | |- exists st' c, ?R = Ok (_, ?e0, ?s0) /\ _ =>
      destruct (ServiceFunc_runs_with_service_logger os0
                  (AddService app0 (ServiceFunc "web" (fun _ _ => Ret None)))
                  empty_world _ _ _ s0 0 "web" (fun _ _ => Ret None)
                  (eq_refl : R = Ok (_, e0, s0)) eq_refl eq_refl)
        as (st' & c & Hs & Ht & _)
  end.
  exists st', c. split; [reflexivity|]. split; [exact Hs|exact Ht].
Defined.




End AppRunMore.
